(** * Core/Debugger/WebSocket.cpp: the debugger WebSocket endpoint

    A shallow embedding of [HandleDebuggerRequest], [UpdateConnected] and
    [StopAllDebuggers].  The per-connection code (frame handlers, subscriber
    init and teardown) is a set of functions over the connection's locals;
    the code that runs on several threads is a step function over a pool of
    threads sharing [debuggersConnected], [stopRequested], [stopLock] and
    [stopCond]. *)

From Stdlib Require Import ZArith Lia Ascii.
From stdpp Require Import base option numbers list strings gmap.

Local Open Scope Z_scope.

(** ** Values handed over by the collaborators *)

(** What [JsonReader] produces for a parsed text. *)
#[warnings="-register-all"]
Inductive JsonValue :=
| JSON_NULL
| JSON_BOOL (b : bool)
| JSON_NUMBER (lit : string)
| JSON_STRING (s : string)
| JSON_ARRAY (xs : list JsonValue)
| JSON_OBJECT (fs : list (string * JsonValue)).

(** [LogTypes::LOG_LEVELS], with the numbering of the header comment. *)
Inductive LOG_LEVELS := LNOTICE | LERROR | LWARNING | LINFO | LDEBUG | LVERBOSE.

(** The ["level"] member of an error event. *)
Definition level_code (l : LOG_LEVELS) : Z :=
  match l with
  | LNOTICE => 1 | LERROR => 2 | LWARNING => 3
  | LINFO => 4 | LDEBUG => 5 | LVERBOSE => 6
  end.

(** [net::WebSocketClose], of which the file uses [GOING_AWAY]. *)
Inductive WebSocketClose := NORMAL | GOING_AWAY.

(** [void *]: an address, [nullptr] being 0. *)
Definition ptr := Z.
Definition nullptr : ptr := 0.

(** The first member of an object with the given key. *)
Fixpoint assoc_find (k : string) (fs : list (string * JsonValue)) : option JsonValue :=
  match fs with
  | [] => None
  | (k', v) :: rest => if decide (k = k') then Some v else assoc_find k rest
  end.

(** Modelled from the spec: [JsonGet] (WebSocketUtils.h and the JSON layer
    are not part of this file).  A request is "a JSON object with required
    string field event; optional field ticket": [get] finds a member of an
    object, [getString] a member that is a string, and a [JsonGet] is true in
    a condition when it is not null. *)
Definition JsonGet_get (v : JsonValue) (k : string) : option JsonValue :=
  match v with
  | JSON_OBJECT fs => assoc_find k fs
  | _ => None
  end.

(** Modelled from the spec: [JsonGet::getString] with a null default, for
    the "required string field event". *)
Definition JsonGet_getString (v : JsonValue) (k : string) : option string :=
  match JsonGet_get v k with
  | Some (JSON_STRING s) => Some s
  | _ => None
  end.

(** Modelled from the spec: a [JsonGet] used as a condition ([root ? .. : ..]
    at line 99) is true when it holds a value. *)
Definition JsonGet_bool (v : JsonValue) : bool :=
  match v with JSON_NULL => false | _ => true end.

(** Modelled from the spec: [JsonReader::root], the parsed value when it is
    an object and null otherwise. *)
Definition reader_root (v : JsonValue) : JsonValue :=
  match v with JSON_OBJECT _ => v | _ => JSON_NULL end.

(** Modelled from the spec: the error event on the wire,
    [{"event":"error","message":..,"level":..,"ticket"?:..}]. *)
Record ErrorEvent := {
  message : string;
  level : LOG_LEVELS;
  ticket : option JsonValue
}.

(** Modelled from the spec: the constructor of [DebuggerErrorEvent]
    (WebSocketUtils.h).  The third argument is the request payload and
    defaults to null; the ticket is "present iff the request had one". *)
Definition DebuggerErrorEvent (m : string) (l : LOG_LEVELS) (payload : JsonValue) : ErrorEvent :=
  {| message := m; level := l; ticket := JsonGet_get payload "ticket" |}.

(** Modelled from the spec: what [ws->Send] is given, an error event or any
    other event with its name and members. *)
Inductive Payload :=
| PError (e : ErrorEvent)
| PEvent (event : string) (members : list (string * JsonValue)).

(** What a connection does, in order.  [EvFind] and [EvCall] record the
    lookup in [eventHandlers] and the call of the handler found, [EvAssert]
    an [assert] of line 133 that was evaluated and held. *)
Inductive Event :=
| EvSend (p : Payload)
| EvClose (code : WebSocketClose)
| EvFind (event : string)
| EvCall (event : string)
| EvInit (i : nat)
| EvShutdown (i : nat) (p : ptr)
| EvAssert (i : nat)
| EvDelete.

(** Picking events of one kind out of a log. *)
Definition is_call (e : Event) : bool := match e with EvCall _ => true | _ => false end.
Definition is_find (e : Event) : bool := match e with EvFind _ => true | _ => false end.
Definition is_close (e : Event) : bool := match e with EvClose _ => true | _ => false end.

(** What went out on the socket. *)
Definition sent (evs : list Event) : list Payload :=
  omap (λ e, match e with EvSend p => Some p | _ => None end) evs.

(** An inbound frame. *)
Inductive Frame :=
| Text (t : string)
| Binary (d : list Byte.byte).

(** [DebuggerRequest]: the event name, the payload and whether a response
    went out.  Its [ws] is the socket of the connection it belongs to. *)
Record DebuggerRequest := {
  name : string;
  data : JsonValue;
  responseSent_ : bool
}.

(** Modelled from the spec: [DebuggerRequest::Fail] sends the error event
    for this request (severity error, the request's ticket repeated). *)
Definition Fail (req : DebuggerRequest) (m : string) : DebuggerRequest * list Event :=
  ({| name := name req; data := data req; responseSent_ := true |},
   [EvSend (PError (DebuggerErrorEvent m LERROR (data req)))]).

(** Modelled from the spec: [DebuggerRequest::Finish] "sends a default
    completion if the handler did nothing", echoing the event name. *)
Definition Finish (req : DebuggerRequest) : list Event :=
  if responseSent_ req then [] else [EvSend (PEvent (name req) [])].

(** What can go wrong in the teardown loop: the [assert] of line 133 fails
    for subscriber [i], or [subscriberData] has no element [i]. *)
Inductive Fault :=
| AssertionFailed (i : nat)
| NoSubscriberData (i : nat).

Section Debugger.

(** The state of the host (emulator core, game metadata, ...) that the
    subscribers' handlers read and change. *)
Context {Host : Type}.

(** [JsonReader reader(t.c_str(), t.size())]: [None] when [!reader.ok()],
    otherwise the value parsed.  The parser is a collaborator. *)
Variable JsonReader : string → option JsonValue.

(** [DebuggerEventHandler = std::function<void(DebuggerRequest &)>]: the
    handler answers through its request, and may change the host. *)
Definition DebuggerEventHandler : Type :=
  DebuggerRequest → Host → DebuggerRequest * Host * list Payload.

Local Abbreviation DebuggerEventHandlerMap := (gmap string DebuggerEventHandler).

(** Lines 49-54. *)
Definition SubscriberInit : Type :=
  DebuggerEventHandlerMap → ptr * DebuggerEventHandlerMap.
Definition Subscribershutdown : Type := ptr → Host → Host.

Record SubscriberInfo := {
  init : SubscriberInit;
  shutdown : option Subscribershutdown
}.

(** The events the two subscriber modules register. *)
Variable cpu_core_events : list (string * DebuggerEventHandler).
Variable game_events : list (string * DebuggerEventHandler).

(** [map[key] = handler] for each entry in turn. *)
Definition register_all (entries : list (string * DebuggerEventHandler))
    (map : DebuggerEventHandlerMap) : DebuggerEventHandlerMap :=
  foldl (λ m kv, <[kv.1 := kv.2]> m) map entries.

(** Modelled from the spec: [WebSocketCPUCoreInit] and [WebSocketGameInit]
    (CPUCoreSubscriber.cpp and GameSubscriber.cpp are not part of this file).
    Each "registers its handlers and returns an opaque per-connection
    context"; a module "without a teardown must not have allocated a
    context", and neither of the two has one. *)
Definition WebSocketCPUCoreInit : SubscriberInit :=
  λ map, (nullptr, register_all cpu_core_events map).

(** Modelled from the spec: [WebSocketGameInit], as
    [WebSocketCPUCoreInit]. *)
Definition WebSocketGameInit : SubscriberInit :=
  λ map, (nullptr, register_all game_events map).

(** Lines 56-59. *)
Definition subscribers : list SubscriberInfo :=
  [ {| init := WebSocketCPUCoreInit; shutdown := None |};
    {| init := WebSocketGameInit; shutdown := None |} ].

(** The locals of one [HandleDebuggerRequest] call that outlive a statement:
    whether [ws] is still open, [eventHandlers] and [subscriberData]. *)
Record Conn := {
  ws_open : bool;
  eventHandlers : DebuggerEventHandlerMap;
  subscriberData : list ptr
}.

(** Lines 87-89: [for (auto info : subscribers)
    subscriberData.push_back(info.init(eventHandlers))], from position [i]. *)
Fixpoint init_subscribers (subs : list SubscriberInfo) (i : nat)
    (map : DebuggerEventHandlerMap) (sd : list ptr)
    : DebuggerEventHandlerMap * list ptr * list Event :=
  match subs with
  | [] => (map, sd, [])
  | info :: rest =>
      let '(p, map1) := init info map in
      let '(map2, sd2, evs) := init_subscribers rest (S i) map1 (sd ++ [p]) in
      (map2, sd2, EvInit i :: evs)
  end.

(** Lines 129-135: the teardown loop from index [i] on; [subs] is what is
    left of [subscribers] from that index. *)
Fixpoint shutdown_subscribers (subs : list SubscriberInfo) (i : nat)
    (sd : list ptr) (h : Host) : Fault + Host * list Event :=
  match subs with
  | [] => inr (h, [])
  | info :: rest =>
      match sd !! i with
      | None => inl (NoSubscriberData i)
      | Some p =>
          match shutdown info with
          | Some f =>
              match shutdown_subscribers rest (S i) sd (f p h) with
              | inr (h', evs) => inr (h', EvShutdown i p :: evs)
              | inl e => inl e
              end
          | None =>
              if decide (p = nullptr)
              then match shutdown_subscribers rest (S i) sd h with
                   | inr (h', evs) => inr (h', EvAssert i :: evs)
                   | inl e => inl e
                   end
              else inl (AssertionFailed i)
          end
      end
  end.

(** Lines 91-113: the text handler. *)
Definition TextHandler (handlers : DebuggerEventHandlerMap) (t : string) (h : Host)
    : Host * list Event :=
  match JsonReader t with
  | None =>
      (h, [EvSend (PError (DebuggerErrorEvent "Bad message: invalid JSON" LERROR JSON_NULL))])
  | Some parsed =>
      let root := reader_root parsed in
      let event := if JsonGet_bool root then JsonGet_getString root "event" else None in
      match event with
      | None =>
          (h, [EvSend (PError (DebuggerErrorEvent "Bad message: no event property" LERROR root))])
      | Some event =>
          let req := {| name := event; data := root; responseSent_ := false |} in
          match handlers !! event with
          | Some eventFunc =>
              let '(req', h', out) := eventFunc req h in
              (h', EvFind event :: EvCall event :: (EvSend <$> out) ++ Finish req')
          | None =>
              (h, EvFind event :: (Fail req "Bad message: unknown event").2)
          end
      end
  end.

(** Lines 114-116: the binary handler. *)
Definition BinaryHandler (d : list Byte.byte) (h : Host) : Host * list Event :=
  (h, [EvSend (PError (DebuggerErrorEvent "Bad message" LERROR JSON_NULL))]).

(** The handler that [Process] calls for a frame (lines 91 and 114). *)
Definition on_frame (handlers : DebuggerEventHandlerMap) (f : Frame) (h : Host)
    : Host * list Event :=
  match f with
  | Text t => TextHandler handlers t h
  | Binary d => BinaryHandler d h
  end.

(** The frames that one [ws->Process] call hands to the two handlers. *)
Fixpoint deliver (handlers : DebuggerEventHandlerMap) (fs : list Frame) (h : Host)
    : Host * list Event :=
  match fs with
  | [] => (h, [])
  | f :: rest =>
      let '(h1, evs1) := on_frame handlers f h in
      let '(h2, evs2) := deliver handlers rest h1 in
      (h2, evs1 ++ evs2)
  end.

(** Modelled from the spec: [WebSocketServer::Process] (the transport is not
    part of this file).  It "reports closure (by peer, by local close
    request, or by error)" by returning false; otherwise it hands the frames
    that arrived within the timeout to the handlers and returns true.
    [alive] says whether the peer and the channel are still there. *)
Definition ws_Process (c : Conn) (alive : bool) (fs : list Frame) (h : Host)
    : bool * Conn * Host * list Event :=
  if ws_open c then
    if alive then
      let '(h', evs) := deliver (eventHandlers c) fs h in (true, c, h', evs)
    else
      (false, {| ws_open := false; eventHandlers := eventHandlers c;
                 subscriberData := subscriberData c |}, h, [])
  else (false, c, h, []).

(** Modelled from the spec: [WebSocketServer::Close], a "local close
    request". *)
Definition ws_Close (c : Conn) (code : WebSocketClose) : Conn * list Event :=
  ({| ws_open := false; eventHandlers := eventHandlers c;
      subscriberData := subscriberData c |}, [EvClose code]).


(** ** The shared state and the threads *)

(** [int] as the targets have it: 32 bits, two's complement. *)
Definition INT_MAX : Z := 2147483647.
Definition wrap_int (z : Z) : Z := (z + 2147483648) mod 4294967296 - 2147483648.

(** Where a thread is inside [UpdateConnected]: before taking [stopLock],
    before reading [debuggersConnected], before writing it back (with the
    value read), before [notify_all], before the guard is released. *)
Inductive UPhase := ULock | ULoad | UStore (tmp : Z) | UNotify | UUnlock.

(** Where a thread is: outside both entry points, inside
    [HandleDebuggerRequest] ([H_]) or inside [StopAllDebuggers] ([S_]). *)
Inductive PC :=
| Idle
| H_Upgrade                                (* line 74 *)
| H_Update (opening : bool) (ph : UPhase)  (* lines 79 and 138, 67-71 *)
| H_Setup                                  (* lines 81-116 *)
| H_Process                                (* line 118 *)
| H_Broadcast                              (* lines 120-122 *)
| H_StopCheck                              (* lines 124-126 *)
| H_Teardown                               (* lines 129-137 *)
| Aborted                                  (* line 133 failed *)
| S_Lock                                   (* line 142 *)
| S_Test                                   (* line 143 *)
| S_Set                                    (* line 144 *)
| S_Wait                                   (* line 145, entering wait *)
| S_Blocked                                (* line 145, waiting on stopCond *)
| S_Relock                                 (* line 145, woken, retaking stopLock *)
| S_Reset                                  (* line 149 *)
| S_Unlock.                                (* line 150 *)

(** A thread: where it is, its name, the locals of its connection and what
    the connection has done so far. *)
Record Thread := {
  pc : PC;
  tname : string;
  loc : Conn;
  trace : list Event
}.

(** Lines 62-65 (the waiters of [stopCond] are the threads at [S_Blocked]),
    the host and the pool of threads. *)
Record State := {
  debuggersConnected : Z;
  stopRequested : bool;
  stopLock : option nat;
  host : Host;
  threads : list Thread
}.

(** What the scheduler and the collaborators decide at a step. *)
Inductive Label :=
| LCallHandle                          (* the server calls HandleDebuggerRequest *)
| LCallStop                            (* the host calls StopAllDebuggers *)
| LUpgrade (ok : bool)                 (* CreateAsUpgrade returns non-null or null *)
| LProcess (alive : bool) (fs : list Frame)
| LBroadcast (logger game stepping : list Payload)
| LSpurious                            (* a spurious wake-up of wait *)
| LTau.

(** The locals before a connection exists. *)
Definition no_conn : Conn :=
  {| ws_open := false; eventHandlers := ∅; subscriberData := [] |}.

Definition idle_thread : Thread :=
  {| pc := Idle; tname := EmptyString; loc := no_conn; trace := [] |}.

Definition at_pc (th : Thread) (p : PC) : Thread :=
  {| pc := p; tname := tname th; loc := loc th; trace := trace th |}.

Definition emit (th : Thread) (evs : list Event) : Thread :=
  {| pc := pc th; tname := tname th; loc := loc th; trace := trace th ++ evs |}.

Definition with_loc (th : Thread) (c : Conn) : Thread :=
  {| pc := pc th; tname := tname th; loc := c; trace := trace th |}.

Definition with_threads (s : State) (ths : list Thread) : State :=
  {| debuggersConnected := debuggersConnected s; stopRequested := stopRequested s;
     stopLock := stopLock s; host := host s; threads := ths |}.

Definition with_connected (s : State) (z : Z) : State :=
  {| debuggersConnected := z; stopRequested := stopRequested s;
     stopLock := stopLock s; host := host s; threads := threads s |}.

Definition with_stop (s : State) (b : bool) : State :=
  {| debuggersConnected := debuggersConnected s; stopRequested := b;
     stopLock := stopLock s; host := host s; threads := threads s |}.

Definition with_lock (s : State) (o : option nat) : State :=
  {| debuggersConnected := debuggersConnected s; stopRequested := stopRequested s;
     stopLock := o; host := host s; threads := threads s |}.

Definition with_host (s : State) (h : Host) : State :=
  {| debuggersConnected := debuggersConnected s; stopRequested := stopRequested s;
     stopLock := stopLock s; host := h; threads := threads s |}.

Definition set_thread (s : State) (t : nat) (th : Thread) : State :=
  with_threads s (<[t := th]> (threads s)).

(** [stopCond.notify_all()]: every thread waiting on [stopCond] is woken and
    has to retake [stopLock]. *)
Definition wake (th : Thread) : Thread :=
  match pc th with S_Blocked => at_pc th S_Relock | _ => th end.

Definition notify_all (s : State) : State := with_threads s (wake <$> threads s).

(** The argument of [UpdateConnected] at line 79 and at line 138. *)
Definition delta (opening : bool) : Z := if opening then 1 else -1.

(** One step of thread [t], whose record is [th].  [None]: the label does
    not fit where the thread is, or it cannot move ([stopLock] is taken, or
    it waits on [stopCond]). *)
Definition step_at (s : State) (t : nat) (th : Thread) (l : Label) : option State :=
    match pc th, l with
    | Idle, LCallHandle => Some (set_thread s t (at_pc th H_Upgrade))
    | Idle, LCallStop => Some (set_thread s t (at_pc th S_Lock))
    (* HandleDebuggerRequest *)
    | H_Upgrade, LUpgrade false => Some (set_thread s t (at_pc th Idle))
    | H_Upgrade, LUpgrade true =>
        Some (set_thread s t
                {| pc := H_Update true ULock; tname := "Debugger";
                   loc := {| ws_open := true; eventHandlers := ∅; subscriberData := [] |};
                   trace := trace th |})
    | H_Update o ULock, LTau =>
        match stopLock s with
        | None => Some (set_thread (with_lock s (Some t)) t (at_pc th (H_Update o ULoad)))
        | Some _ => None
        end
    | H_Update o ULoad, LTau =>
        Some (set_thread s t (at_pc th (H_Update o (UStore (debuggersConnected s)))))
    | H_Update o (UStore tmp), LTau =>
        Some (set_thread (with_connected s (wrap_int (tmp + delta o))) t
                (at_pc th (H_Update o UNotify)))
    | H_Update o UNotify, LTau =>
        Some (set_thread (notify_all s) t (at_pc th (H_Update o UUnlock)))
    | H_Update o UUnlock, LTau =>
        Some (set_thread (with_lock s None) t (at_pc th (if o then H_Setup else Idle)))
    | H_Setup, LTau =>
        let '(map, sd, evs) := init_subscribers subscribers 0 ∅ [] in
        Some (set_thread s t
                (at_pc (emit (with_loc th {| ws_open := ws_open (loc th);
                                             eventHandlers := map;
                                             subscriberData := sd |}) evs)
                       H_Process))
    | H_Process, LProcess alive fs =>
        let '(more, c, h, evs) := ws_Process (loc th) alive fs (host s) in
        Some (set_thread (with_host s h) t
                (at_pc (emit (with_loc th c) evs)
                       (if more then H_Broadcast else H_Teardown)))
    | H_Broadcast, LBroadcast logger game stepping =>
        Some (set_thread s t
                (at_pc (emit th (EvSend <$> (logger ++ game ++ stepping))) H_StopCheck))
    | H_StopCheck, LTau =>
        if stopRequested s then
          let '(c, evs) := ws_Close (loc th) GOING_AWAY in
          Some (set_thread s t (at_pc (emit (with_loc th c) evs) H_Process))
        else Some (set_thread s t (at_pc th H_Process))
    | H_Teardown, LTau =>
        match shutdown_subscribers subscribers 0 (subscriberData (loc th)) (host s) with
        | inr (h, evs) =>
            Some (set_thread (with_host s h) t
                    (at_pc (emit th (evs ++ [EvDelete])) (H_Update false ULock)))
        | inl _ => Some (set_thread s t (at_pc th Aborted))
        end
    (* StopAllDebuggers *)
    | S_Lock, LTau =>
        match stopLock s with
        | None => Some (set_thread (with_lock s (Some t)) t (at_pc th S_Test))
        | Some _ => None
        end
    | S_Test, LTau =>
        if decide (debuggersConnected s ≠ 0)
        then Some (set_thread s t (at_pc th S_Set))
        else Some (set_thread s t (at_pc th S_Reset))
    | S_Set, LTau => Some (set_thread (with_stop s true) t (at_pc th S_Wait))
    | S_Wait, LTau => Some (set_thread (with_lock s None) t (at_pc th S_Blocked))
    | S_Blocked, LSpurious => Some (set_thread s t (at_pc th S_Relock))
    | S_Relock, LTau =>
        match stopLock s with
        | None => Some (set_thread (with_lock s (Some t)) t (at_pc th S_Test))
        | Some _ => None
        end
    | S_Reset, LTau => Some (set_thread (with_stop s false) t (at_pc th S_Unlock))
    | S_Unlock, LTau => Some (set_thread (with_lock s None) t (at_pc th Idle))
    | _, _ => None
    end.

(** One step of thread [t]; [None] also when there is no such thread. *)
Definition step (s : State) (t : nat) (l : Label) : option State :=
  match threads s !! t with
  | None => None
  | Some th => step_at s t th l
  end.

(** A schedule: which thread moves, and how. *)
Fixpoint exec (s : State) (sched : list (nat * Label)) : option State :=
  match sched with
  | [] => Some s
  | (t, l) :: rest =>
      match step s t l with
      | Some s' => exec s' rest
      | None => None
      end
  end.

(** [n] threads, none of them inside the two entry points yet. *)
Definition initial (n : nat) (h0 : Host) : State :=
  {| debuggersConnected := 0; stopRequested := false; stopLock := None;
     host := h0; threads := replicate n idle_thread |}.

(** The states some pool can get to from the start. *)
Definition reachable (s : State) : Prop :=
  ∃ n h0 sched, exec (initial n h0) sched = Some s.

(** ** What the claims speak about *)

(** The thread is inside a region guarded by [stopLock]. *)
Definition holds (p : PC) : bool :=
  match p with
  | H_Update _ ULock => false
  | H_Update _ _ => true
  | S_Test | S_Set | S_Wait | S_Reset | S_Unlock => true
  | _ => false
  end.

(** The thread runs an upgraded connection that has added itself to
    [debuggersConnected] and has not yet taken itself off. *)
Definition counted (p : PC) : bool :=
  match p with
  | H_Update true (UNotify | UUnlock) => true
  | H_Update false (ULock | ULoad | UStore _) => true
  | H_Setup | H_Process | H_Broadcast | H_StopCheck | H_Teardown | Aborted => true
  | _ => false
  end.

(** The number of such connections. *)
Definition inflight (ths : list Thread) : nat :=
  length (filter (λ th, counted (pc th) = true) ths).

(** The thread is inside [StopAllDebuggers], past taking the lock and before
    the reset of line 149 is done. *)
Definition draining (p : PC) : bool :=
  match p with
  | S_Test | S_Set | S_Wait | S_Blocked | S_Relock | S_Reset => true
  | _ => false
  end.

(** [subscriberData] once the two subscribers are set up. *)
Definition subscriberData_ready : list ptr := [nullptr; nullptr].

(** What a thread may rely on where it is, given the shared variables. *)
Definition local_ok (dc : Z) (sr : bool) (th : Thread) : Prop :=
  match pc th with
  | H_Update _ (UStore tmp) => tmp = dc
  | S_Set => dc ≠ 0
  | S_Reset => dc = 0
  | S_Unlock => sr = false ∧ dc = 0
  | H_Process | H_Broadcast | H_StopCheck | H_Teardown =>
      subscriberData (loc th) = subscriberData_ready
  | Aborted => False
  | _ => True
  end.

(** [stopLock] is held by exactly the thread inside a guarded region. *)
Definition lock_ok (lk : option nat) (ths : list Thread) : Prop :=
  ∀ t th, ths !! t = Some th → (holds (pc th) = true ↔ lk = Some t).

(** What holds in every reachable state. *)
Record Inv (s : State) : Prop := {
  inv_lock : lock_ok (stopLock s) (threads s);
  inv_count : debuggersConnected s = wrap_int (Z.of_nat (inflight (threads s)));
  inv_local : ∀ t th, threads s !! t = Some th →
                local_ok (debuggersConnected s) (stopRequested s) th;
  inv_drain : stopRequested s = true →
                ∃ t th, threads s !! t = Some th ∧ draining (pc th) = true
}.

(** The flag is up and no [StopAllDebuggers] caller stands between having
    found the count zero and the reset of line 149. *)
Definition unconfirmed (s : State) : Prop :=
  stopRequested s = true ∧ ∀ t th, threads s !! t = Some th → pc th ≠ S_Reset.

(** Thread [d] is at the test of line 143, holds the lock, and the count it
    is about to read is zero. *)
Definition confirms_zero (s : State) (d : nat) : Prop :=
  ∃ th, threads s !! d = Some th ∧ pc th = S_Test ∧
        stopLock s = Some d ∧ debuggersConnected s = 0.

(** One thread runs a whole [StopAllDebuggers] call that finds no
    connection: the call, the lock, the test, the reset, the unlock. *)
Definition stop_call (t : nat) : list (nat * Label) :=
  [(t, LCallStop); (t, LTau); (t, LTau); (t, LTau); (t, LTau)].

(** The thread is waiting, or about to wait, on [stopCond]. *)
Definition waiting (p : PC) : bool :=
  match p with S_Set | S_Wait | S_Blocked | S_Relock => true | _ => false end.

(** One thread opens a connection and runs one turn of its loop with no
    inbound frame and nothing to broadcast. *)
Definition connect_call (t : nat) : list (nat * Label) :=
  [(t, LCallHandle); (t, LUpgrade true);
   (t, LTau); (t, LTau); (t, LTau); (t, LTau); (t, LTau);
   (t, LTau); (t, LProcess true []); (t, LBroadcast [] [] []); (t, LTau)].

(** The two errors that carry no ticket. *)
Definition invalid_json_error : ErrorEvent :=
  {| message := "Bad message: invalid JSON"; level := LERROR; ticket := None |}.

Definition bad_message_error : ErrorEvent :=
  {| message := "Bad message"; level := LERROR; ticket := None |}.

Definition b2n (b : bool) : nat := if b then 1%nat else 0%nat.

(** The position a teardown event is about, and the position an init event
    is about. *)
Definition visited (e : Event) : option nat :=
  match e with EvShutdown i _ | EvAssert i => Some i | _ => None end.
Definition inited (e : Event) : option nat :=
  match e with EvInit i => Some i | _ => None end.

(** ** Further notions *)

(** The messages of the four errors the connection itself reports. *)
Definition fixed_errors : list string :=
  ["Bad message: invalid JSON"; "Bad message: no event property";
   "Bad message: unknown event"; "Bad message"].

(** The texts among the frames of a batch. *)
Definition texts (fs : list Frame) : list string :=
  omap (λ f, match f with Text t => Some t | Binary _ => None end) fs.

(** The thread is in the loop of lines 118-127 or in the teardown after it. *)
Definition in_loop (p : PC) : bool :=
  match p with
  | H_Process | H_Broadcast | H_StopCheck | H_Teardown => true
  | _ => false
  end.

(** What a thread waiting on, or about to wait on, [stopCond] may rely on:
    there is still a connection to wait for, or the thread that changed the
    count has its [notify_all] still to do. *)
Definition notify_pending (s : State) : Prop :=
  ∃ t th o, threads s !! t = Some th ∧ pc th = H_Update o UNotify.

Definition wait_ok (s : State) (th : Thread) : Prop :=
  match pc th with
  | S_Wait => debuggersConnected s ≠ 0
  | S_Blocked => debuggersConnected s ≠ 0 ∨ notify_pending s
  | _ => True
  end.

(** What the locals of a connection are while it runs: from the upgrade on
    the name of line 78 and an open socket; in the loop and the teardown the
    table and the contexts of lines 85-89, the socket open while the loop
    body runs and closed once the loop is left. *)
Definition conn_ok (th : Thread) : Prop :=
  match pc th with
  | H_Update true _ | H_Setup =>
      tname th = "Debugger" ∧ ws_open (loc th) = true
  | H_Process | H_Broadcast | H_StopCheck | H_Teardown =>
      tname th = "Debugger" ∧
      eventHandlers (loc th) = (init_subscribers subscribers 0 ∅ []).1.1 ∧
      subscriberData (loc th) = (init_subscribers subscribers 0 ∅ []).1.2 ∧
      match pc th with
      | H_Broadcast | H_StopCheck => ws_open (loc th) = true
      | H_Teardown => ws_open (loc th) = false
      | _ => True
      end
  | _ => True
  end.

(** A drain of one connection: thread [d] calls [StopAllDebuggers] and
    waits; the connection of thread [c] goes through a turn of its loop,
    reads the flag, closes, tears down and takes itself off the count; [d]
    wakes up, finds the count zero, resets the flag and returns. *)
Definition drain_one (c d : nat) : list (nat * Label) :=
  [(d, LCallStop); (d, LTau); (d, LTau); (d, LTau); (d, LTau);
   (c, LProcess true []); (c, LBroadcast [] [] []); (c, LTau);
   (c, LProcess true []); (c, LTau);
   (c, LTau); (c, LTau); (c, LTau); (c, LTau); (c, LTau);
   (d, LTau); (d, LTau); (d, LTau); (d, LTau)].

(** A whole connection whose peer goes away before sending anything: the
    call, the upgrade, [UpdateConnected(1)], the setup, the [Process] that
    reports the closure, the teardown, [UpdateConnected(-1)]. *)
Definition short_session (t : nat) : list (nat * Label) :=
  [(t, LCallHandle); (t, LUpgrade true);
   (t, LTau); (t, LTau); (t, LTau); (t, LTau); (t, LTau);
   (t, LTau); (t, LProcess false []); (t, LTau);
   (t, LTau); (t, LTau); (t, LTau); (t, LTau); (t, LTau)].

(** A step the code takes by itself: not a call by the host and not a
    spurious wake-up. *)
Definition internal (l : Label) : bool :=
  match l with LCallHandle | LCallStop | LSpurious => false | _ => true end.

Definition can_step (s : State) (t : nat) : Prop :=
  ∃ l s', internal l = true ∧ step s t l = Some s'.

(** The thread runs a [HandleDebuggerRequest] call whose upgrade has
    succeeded and which has not returned yet. *)
Definition upgraded (p : PC) : bool :=
  match p with
  | H_Update _ _ | H_Setup | H_Process | H_Broadcast | H_StopCheck
  | H_Teardown | Aborted => true
  | _ => false
  end.

(** Such a call that the counter does not show: inside [UpdateConnected(1)]
    with the store still to come, or inside [UpdateConnected(-1)] with the
    store done. *)
Definition uncounted (p : PC) : bool := upgraded p && negb (counted p).

Definition upgraded_count (ths : list Thread) : nat :=
  length (filter (λ th, upgraded (pc th) = true) ths).

Definition uncounted_count (ths : list Thread) : nat :=
  length (filter (λ th, uncounted (pc th) = true) ths).

(** A call from its upgrade to the head of its loop, and from its teardown
    to its return, run by its thread alone. *)
Definition enter_loop (t : nat) : list (nat * Label) :=
  (t, LUpgrade true) :: replicate 5 (t, LTau) ++ [(t, LTau)].
Definition leave_loop (t : nat) : list (nat * Label) :=
  (t, LTau) :: replicate 5 (t, LTau).

(** ** The frame handlers *)

Lemma deliver_cons handlers f fs h :
  deliver handlers (f :: fs) h =
    (let '(h1, evs1) := on_frame handlers f h in
     let '(h2, evs2) := deliver handlers fs h1 in (h2, evs1 ++ evs2)).
Proof. reflexivity. Qed.

(** A frame whose handler leaves the host alone only adds its events in
    front of what the rest of the batch does. *)
Lemma ws_Process_pure_frame c f fs h evs0 :
  ws_open c = true →
  on_frame (eventHandlers c) f h = (h, evs0) →
  ws_Process c true (f :: fs) h =
    (let '(more, c', h', evs) := ws_Process c true fs h in (more, c', h', evs0 ++ evs)).
Proof.
  intros Hopen Hf. unfold ws_Process. rewrite Hopen, deliver_cons, Hf.
  destruct (deliver (eventHandlers c) fs h) as [h2 evs2]. reflexivity.
Qed.

Lemma TextHandler_invalid handlers t h :
  JsonReader t = None →
  TextHandler handlers t h = (h, [EvSend (PError invalid_json_error)]).
Proof. intros Hbad. unfold TextHandler. rewrite Hbad. reflexivity. Qed.

Lemma TextHandler_unknown handlers t h fs ev :
  JsonReader t = Some (JSON_OBJECT fs) →
  assoc_find "event" fs = Some (JSON_STRING ev) →
  handlers !! ev = None →
  TextHandler handlers t h =
    (h, [EvFind ev;
         EvSend (PError {| message := "Bad message: unknown event"; level := LERROR;
                           ticket := assoc_find "ticket" fs |})]).
Proof.
  intros Hparse Hev Hnone. unfold TextHandler. rewrite Hparse.
  unfold reader_root, JsonGet_bool, JsonGet_getString, JsonGet_get.
  unfold DebuggerEventHandler in *. rewrite Hev, Hnone. reflexivity.
Qed.

(** ** Threads: bookkeeping *)

Lemma wrap_int_small z : -2147483648 ≤ z ≤ INT_MAX → wrap_int z = z.
Proof. unfold wrap_int, INT_MAX. intros Hz. rewrite Z.mod_small; lia. Qed.

Lemma wrap_int_add a b : wrap_int (wrap_int a + b) = wrap_int (a + b).
Proof.
  unfold wrap_int. f_equal.
  replace ((a + 2147483648) mod 4294967296 - 2147483648 + b + 2147483648)
    with ((a + 2147483648) mod 4294967296 + b) by lia.
  rewrite Zplus_mod_idemp_l. f_equal. lia.
Qed.

Lemma lookup_set_thread (ths : list Thread) t th' t' x :
  <[t := th']> ths !! t' = Some x →
  (t' = t ∧ x = th') ∨ (t' ≠ t ∧ ths !! t' = Some x).
Proof.
  intros Hl. destruct (decide (t' = t)) as [->|Hne].
  - left. split; [done|].
    rewrite list_lookup_insert_eq in Hl; [congruence|].
    apply lookup_lt_Some in Hl. by rewrite length_insert in Hl.
  - right. split; [done|]. by rewrite list_lookup_insert_ne in Hl.
Qed.

Lemma lookup_wake (ths : list Thread) t x :
  (wake <$> ths) !! t = Some x → ∃ y, ths !! t = Some y ∧ x = wake y.
Proof.
  rewrite list_lookup_fmap. destruct (ths !! t) as [y|]; [|done].
  intros [= <-]. eauto.
Qed.

Lemma holds_wake th : holds (pc (wake th)) = holds (pc th).
Proof. unfold wake. by destruct (pc th) eqn:E; simpl; rewrite ?E. Qed.

Lemma counted_wake th : counted (pc (wake th)) = counted (pc th).
Proof. unfold wake. by destruct (pc th) eqn:E; simpl; rewrite ?E. Qed.

Lemma draining_wake th : draining (pc (wake th)) = draining (pc th).
Proof. unfold wake. by destruct (pc th) eqn:E; simpl; rewrite ?E. Qed.

Lemma local_ok_wake dc sr th : local_ok dc sr th → local_ok dc sr (wake th).
Proof. unfold wake, local_ok. by destruct (pc th) eqn:E; simpl; rewrite ?E. Qed.

Lemma inflight_cons th ths :
  inflight (th :: ths) = (b2n (counted (pc th)) + inflight ths)%nat.
Proof.
  unfold inflight. rewrite filter_cons.
  destruct (decide (counted (pc th) = true)) as [->|Hn]; [done|].
  by destruct (counted (pc th)).
Qed.

Lemma inflight_insert ths t th th' :
  ths !! t = Some th →
  (inflight (<[t := th']> ths) + b2n (counted (pc th)) =
   inflight ths + b2n (counted (pc th')))%nat.
Proof.
  revert t. induction ths as [|a ths IH]; intros [|t] Hl; simplify_eq/=.
  - rewrite !inflight_cons. lia.
  - rewrite !inflight_cons. specialize (IH _ Hl). lia.
Qed.

Lemma inflight_wake ths : inflight (wake <$> ths) = inflight ths.
Proof.
  induction ths as [|a ths IH]; [done|].
  rewrite fmap_cons, !inflight_cons, counted_wake, IH. done.
Qed.

Lemma inflight_le_length ths : (inflight ths ≤ length ths)%nat.
Proof.
  induction ths as [|a ths IH]; [done|].
  rewrite inflight_cons. simpl. destruct (counted (pc a)); simpl; lia.
Qed.

Lemma inflight_replicate_idle n : inflight (replicate n idle_thread) = 0%nat.
Proof. induction n as [|n IH]; [done|]. simpl. by rewrite inflight_cons, IH. Qed.

Lemma inflight_pos ths t th :
  ths !! t = Some th → counted (pc th) = true → (1 ≤ inflight ths)%nat.
Proof.
  revert t. induction ths as [|a ths IH]; intros [|t] Hl Hc; simplify_eq/=.
  - rewrite inflight_cons, Hc. simpl. lia.
  - rewrite inflight_cons. specialize (IH _ Hl Hc). lia.
Qed.

(** ** The invariant *)

Lemma init_subscribers_table :
  ∃ map, init_subscribers subscribers 0 ∅ [] = (map, subscriberData_ready, [EvInit 0; EvInit 1]).
Proof. eexists. reflexivity. Qed.

Lemma shutdown_subscribers_ready h :
  shutdown_subscribers subscribers 0 subscriberData_ready h = inr (h, [EvAssert 0; EvAssert 1]).
Proof. reflexivity. Qed.

Lemma ws_Process_subscriberData c alive fs h more c' h' evs :
  ws_Process c alive fs h = (more, c', h', evs) → subscriberData c' = subscriberData c.
Proof.
  unfold ws_Process. destruct (ws_open c), alive; try (intros [= <- <- <- <-]; done).
  destruct (deliver _ _ _). intros [= <- <- <- <-]. done.
Qed.

(** Taking a step apart: the thread, where it is, and what the step gives.
    [Hlocal] is the invariant's clause about the threads. *)
Ltac step_branches H s Hloc :=
  repeat match type of H with
  | context [stopLock s] => destruct (stopLock s) eqn:?; try discriminate H
  | context [stopRequested s] => destruct (stopRequested s) eqn:?
  | context [decide ?P] => destruct (decide P)
  | context [ws_Process ?a ?b ?c ?d] =>
      let Hws := fresh "Hws" in
      destruct (ws_Process a b c d) as [[[[] ?] ?] ?] eqn:Hws;
      apply ws_Process_subscriberData in Hws
  | context [shutdown_subscribers ?a ?b ?c ?d] =>
      rewrite Hloc, shutdown_subscribers_ready in H
  end.

Ltac step_cases H s t l Hlocal :=
  unfold step in H;
  let th := fresh "th" in
  let Hth := fresh "Hth" in
  let Hpc := fresh "Hpc" in
  let Hloc := fresh "Hloc" in
  destruct (threads s !! t) as [th|] eqn:Hth; [|discriminate H];
  unfold step_at in H;
  pose proof (Hlocal _ _ Hth) as Hloc; unfold local_ok in Hloc;
  destruct (pc th) as [| |[] [| |?| |]| | | | | | | | | | | | | |] eqn:Hpc;
  destruct l as [| |[]| | | |]; try discriminate H;
  step_branches H s Hloc;
  simpl in H; injection H as <-.

Lemma Inv_initial n h0 : Inv (initial n h0).
Proof.
  split; simpl.
  - intros t th [-> _]%lookup_replicate. simpl. split; [done|discriminate].
  - by rewrite inflight_replicate_idle.
  - by intros t th [-> _]%lookup_replicate.
  - discriminate.
Qed.

Lemma step_lock_ok s t l s' :
  Inv s → step s t l = Some s' → lock_ok (stopLock s') (threads s').
Proof.
  intros [Hlock _ Hlocal _] H. step_cases H s t l Hlocal.
  all: pose proof (Hlock _ _ Hth) as Hself; rewrite Hpc in Hself; simpl in Hself.
  all: simpl; intros t' x Hx; apply lookup_set_thread in Hx as [[-> ->]|[Hne Hx]]; simpl.
  all: try (apply lookup_wake in Hx as (y & Hx & ->); rewrite holds_wake).
  all: try (specialize (Hlock _ _ Hx)); intuition congruence.
Qed.

Lemma step_count_ok s t l s' :
  Inv s → step s t l = Some s' →
  debuggersConnected s' = wrap_int (Z.of_nat (inflight (threads s'))).
Proof.
  intros [_ Hcount Hlocal _] H. step_cases H s t l Hlocal.
  all: simpl; rewrite ?Hcount.
  all: try (pose proof (inflight_insert (wake <$> threads s) t (wake th)
              (at_pc th (H_Update true UUnlock))) as Hins;
            rewrite list_lookup_fmap, Hth, counted_wake, Hpc, inflight_wake in Hins;
            specialize (Hins eq_refl); simpl in Hins; f_equal; lia).
  all: try (pose proof (inflight_insert (wake <$> threads s) t (wake th)
              (at_pc th (H_Update false UUnlock))) as Hins;
            rewrite list_lookup_fmap, Hth, counted_wake, Hpc, inflight_wake in Hins;
            specialize (Hins eq_refl); simpl in Hins; f_equal; lia).
  all: match goal with
       | Hth : threads ?s0 !! ?t0 = Some ?th0
         |- context [inflight (<[?t0 := ?th']> (threads ?s0))] =>
           pose proof (inflight_insert (threads s0) t0 th0 th' Hth) as Hins;
           rewrite Hpc in Hins; simpl in Hins
       end.
  all: try (f_equal; lia).
  - subst tmp. rewrite Hcount, wrap_int_add. f_equal. simpl. lia.
  - subst tmp. rewrite Hcount, wrap_int_add. f_equal. simpl. lia.
Qed.

Lemma local_ok_unheld dc sr dc' sr' th :
  holds (pc th) = false → local_ok dc sr th → local_ok dc' sr' th.
Proof.
  unfold local_ok. destruct (pc th) as [| |? []| | | | | | | | | | | | | |]; simpl; try done.
Qed.

Lemma step_local_ok s t l s' :
  Inv s → step s t l = Some s' →
  ∀ t' x, threads s' !! t' = Some x →
    local_ok (debuggersConnected s') (stopRequested s') x.
Proof.
  intros [Hlock _ Hlocal _] H. step_cases H s t l Hlocal.
  all: pose proof (Hlock _ _ Hth) as Hself; rewrite Hpc in Hself; simpl in Hself.
  all: simpl; intros t' x Hx; apply lookup_set_thread in Hx as [[-> ->]|[Hne Hx]].
  all: try match goal with
       | Hq : stopRequested ?s0 = _ |- context [stopRequested ?s0] => rewrite Hq
       end.
  all: try (unfold local_ok; simpl; first [done | lia | congruence]).
  all: try (apply lookup_wake in Hx as (y & Hx & ->); apply local_ok_wake).
  all: try (by apply Hlocal in Hx).
  all: apply (local_ok_unheld (debuggersConnected s) (stopRequested s));
         [|by eapply Hlocal].
  all: specialize (Hlock _ _ Hx); destruct (holds (pc x)); [|done].
  all: intuition congruence.
Qed.

Lemma step_drain_ok s t l s' :
  Inv s → step s t l = Some s' →
  stopRequested s' = true →
  ∃ t' x, threads s' !! t' = Some x ∧ draining (pc x) = true.
Proof.
  intros [_ _ Hlocal Hdrain] H. step_cases H s t l Hlocal.
  all: simpl; intros Hsr; try discriminate Hsr.
  all: try (exists t; eexists; split;
            [apply list_lookup_insert_eq; by eapply lookup_lt_Some|done]).
  all: assert (∃ t0 x, threads s !! t0 = Some x ∧ draining (pc x) = true)
         as (t0 & x & Hx & Hd)
         by first [apply Hdrain; first [exact Hsr | reflexivity] | congruence].
  all: destruct (decide (t0 = t)) as [->|Hne];
         [rewrite Hth in Hx; injection Hx as <-; rewrite Hpc in Hd; discriminate Hd|].
  all: exists t0.
  all: try (exists x; split; [by rewrite list_lookup_insert_ne|done]).
  all: exists (wake x); split; [|by rewrite draining_wake].
  all: rewrite list_lookup_insert_ne by done.
  all: by rewrite list_lookup_fmap, Hx.
Qed.

Lemma step_Inv s t l s' : Inv s → step s t l = Some s' → Inv s'.
Proof.
  intros HI H. split.
  - by eapply step_lock_ok.
  - by eapply step_count_ok.
  - by eapply step_local_ok.
  - by eapply step_drain_ok.
Qed.

Lemma exec_Inv sched : ∀ s s', Inv s → exec s sched = Some s' → Inv s'.
Proof.
  induction sched as [|[t l] sched IH]; simpl; intros s s' HI H.
  - by injection H as <-.
  - destruct (step s t l) as [s1|] eqn:Hstep; [|discriminate H].
    eapply IH; [|exact H]. by eapply step_Inv.
Qed.

Lemma reachable_Inv s : reachable s → Inv s.
Proof. intros (n & h0 & sched & H). eapply exec_Inv; [apply Inv_initial|exact H]. Qed.

Lemma step_lookup s t l th : threads s !! t = Some th → step s t l = step_at s t th l.
Proof. intros Hth. unfold step. by rewrite Hth. Qed.

(** ** Who changes the shared variables *)

Lemma step_connected_change s t l s' :
  Inv s → step s t l = Some s' →
  debuggersConnected s' ≠ debuggersConnected s →
  ∃ th o, threads s !! t = Some th ∧ l = LTau ∧
    pc th = H_Update o (UStore (debuggersConnected s)) ∧
    stopLock s = Some t ∧
    s' = set_thread (with_connected s (wrap_int (debuggersConnected s + delta o))) t
           (at_pc th (H_Update o UNotify)).
Proof.
  intros [Hlock _ Hlocal _] H. step_cases H s t l Hlocal; simpl; try done.
  all: intros _; subst tmp; eexists th, _; split_and!; try done.
  all: apply (Hlock _ _ Hth); by rewrite Hpc.
Qed.

Lemma step_flag_change s t l s' :
  Inv s → step s t l = Some s' →
  stopRequested s' ≠ stopRequested s →
  ∃ th, threads s !! t = Some th ∧ l = LTau ∧ stopLock s = Some t ∧
    ((pc th = S_Set ∧ debuggersConnected s ≠ 0 ∧
      s' = set_thread (with_stop s true) t (at_pc th S_Wait)) ∨
     (pc th = S_Reset ∧ debuggersConnected s = 0 ∧
      s' = set_thread (with_stop s false) t (at_pc th S_Unlock))).
Proof.
  intros [Hlock _ Hlocal _] H. step_cases H s t l Hlocal; simpl; try done.
  all: intros _; exists th; split_and!; try done.
  all: try (apply (Hlock _ _ Hth); by rewrite Hpc).
  - by left.
  - by right.
Qed.

(** With no more threads than an [int] can count, the counter is the number
    of connections between their increment and their decrement. *)
Lemma connected_exact s :
  Inv s → Z.of_nat (length (threads s)) ≤ INT_MAX →
  debuggersConnected s = Z.of_nat (inflight (threads s)).
Proof.
  intros HI Hn. rewrite (inv_count _ HI). apply wrap_int_small.
  pose proof (inflight_le_length (threads s)). lia.
Qed.

Lemma step_length s t l s' :
  step s t l = Some s' → length (threads s') = length (threads s).
Proof.
  intros H. unfold step in H. destruct (threads s !! t) as [th|]; [|done].
  unfold step_at in H.
  destruct (pc th) as [| |? []| | | | | | | | | | | | | |], l as [| |[]| | | |];
    try discriminate H;
    repeat match type of H with
    | context [stopLock s] => destruct (stopLock s); try discriminate H
    | context [stopRequested s] => destruct (stopRequested s)
    | context [decide ?P] => destruct (decide P)
    | context [ws_Process ?a ?b ?c ?d] => destruct (ws_Process a b c d) as [[[? ?] ?] ?]
    | context [shutdown_subscribers ?a ?b ?c ?d] =>
        destruct (shutdown_subscribers a b c d) as [?|[? ?]]
    end;
    simpl in H; injection H as <-; simpl;
    by rewrite ?length_insert, ?length_fmap.
Qed.

(** ** The stop flag *)

(** C1, as amended.  In every reachable state [stopRequested] is true only
    while some thread is inside [StopAllDebuggers] between taking the lock
    and its reset.  A step changes the flag only from inside
    [StopAllDebuggers], its thread holding [stopLock]: to true at line 144,
    where the count is not zero (at least one, with no more threads than
    [INT_MAX]); to false at line 149, where the count is zero.  A thread
    about to run line 144 or line 149 holds the lock and has just seen the
    count non-zero, respectively zero. *)
Theorem stop_flag_only_while_draining s :
  reachable s →
  (stopRequested s = true →
     ∃ t th, threads s !! t = Some th ∧ draining (pc th) = true) ∧
  (∀ t l s', step s t l = Some s' → stopRequested s' ≠ stopRequested s →
     ∃ th, threads s !! t = Some th ∧ stopLock s = Some t ∧
       ((pc th = S_Set ∧ stopRequested s' = true ∧ debuggersConnected s ≠ 0 ∧
         (Z.of_nat (length (threads s)) ≤ INT_MAX → 1 ≤ debuggersConnected s)) ∨
        (pc th = S_Reset ∧ stopRequested s' = false ∧ debuggersConnected s = 0))) ∧
  (∀ t th, threads s !! t = Some th →
     (pc th = S_Set → stopLock s = Some t ∧ debuggersConnected s ≠ 0) ∧
     (pc th = S_Reset → stopLock s = Some t ∧ debuggersConnected s = 0)).
Proof.
  intros HI%reachable_Inv. split_and!.
  - apply (inv_drain _ HI).
  - intros t l s' Hstep Hne.
    destruct (step_flag_change _ _ _ _ HI Hstep Hne)
      as (th & Hth & -> & Hlk & [(Hpc & Hdc & ->)|(Hpc & Hdc & ->)]).
    + exists th. split_and!; try done. left. split_and!; try done.
      intros Hn. pose proof (connected_exact _ HI Hn). lia.
    + exists th. split_and!; try done. by right.
  - intros t th Hth. pose proof (inv_local _ HI _ _ Hth) as Hloc.
    pose proof (inv_lock _ HI _ _ Hth) as Hlk. unfold local_ok in Hloc.
    split; intros Hpc; rewrite Hpc in Hloc, Hlk; (split; [by apply Hlk|done]).
Qed.

Lemma pc_wake_reset th : pc (wake th) = S_Reset → pc th = S_Reset.
Proof. unfold wake. destruct (pc th) eqn:E; simpl; congruence. Qed.

Lemma unconfirmed_step s t l s' :
  Inv s → unconfirmed s → step s t l = Some s' →
  unconfirmed s' ∨ (l = LTau ∧ confirms_zero s t).
Proof.
  intros [Hlock _ Hlocal _] [Hsr Hnone] H. step_cases H s t l Hlocal.
  all: try (by destruct (Hnone _ _ Hth)).
  all: try (right; split; [done|]; exists th; split_and!; try done;
            [apply (Hlock _ _ Hth); by rewrite Hpc | lia]).
  all: left; split; [simpl; first [done | congruence]|].
  all: simpl; intros t' x Hx; apply lookup_set_thread in Hx as [[-> ->]|[Hne Hx]];
         [simpl; try destruct opening; done|].
  all: try (apply lookup_wake in Hx as (y & Hx & ->); intros ?%pc_wake_reset;
            by eapply Hnone).
  all: by eapply Hnone.
Qed.

Lemma unconfirmed_exec sched : ∀ s s2,
  Inv s → unconfirmed s → exec s sched = Some s2 → stopRequested s2 = false →
  ∃ pre d post sm,
    sched = pre ++ (d, LTau) :: post ∧ exec s pre = Some sm ∧
    (∀ k sk, exec s (take k pre) = Some sk → stopRequested sk = true) ∧
    confirms_zero sm d.
Proof.
  induction sched as [|[t l] sched IH]; simpl; intros s s2 HI HP H Hoff.
  - injection H as <-. destruct HP as [HP _]. congruence.
  - destruct (step s t l) as [s1|] eqn:Hstep; [|discriminate H].
    destruct (unconfirmed_step _ _ _ _ HI HP Hstep) as [HP1|[-> Hc]].
    + destruct (IH _ _ (step_Inv _ _ _ _ HI Hstep) HP1 H Hoff)
        as (pre & d & post & sm & -> & Hpre & Hkeep & Hc).
      exists ((t, l) :: pre), d, post, sm. split_and!; try done.
      * simpl. by rewrite Hstep.
      * intros [|k] sk; simpl.
        -- intros [= <-]. apply HP.
        -- rewrite Hstep. apply Hkeep.
    + exists [], t, sched, s. split_and!; try done.
      intros k sk. rewrite take_nil. simpl. intros [= <-]. apply HP.
Qed.

(** A connection past its increment shows that nobody has found the count
    zero and not yet reset the flag. *)
Lemma counted_unconfirmed s t th :
  Inv s → Z.of_nat (length (threads s)) ≤ INT_MAX →
  threads s !! t = Some th → counted (pc th) = true →
  stopRequested s = true → unconfirmed s.
Proof.
  intros HI Hn Hth Hc Hsr. split; [done|]. intros d thd Hd Hpc.
  pose proof (inv_local _ HI _ _ Hd) as Hloc. unfold local_ok in Hloc.
  rewrite Hpc in Hloc.
  pose proof (connected_exact _ HI Hn) as Hdc.
  pose proof (inflight_pos _ _ _ Hth Hc). lia.
Qed.

(** C2.  A connection loop is at line 124 and [stopRequested] is true, so
    its next step reads true.  If, after that read, the run reaches a state
    where the flag is false, then after the read some [StopAllDebuggers]
    caller, holding the lock, was at the test of line 143 with the count zero,
    and the flag stayed true in every state up to that test. *)
Theorem stop_flag_kept_until_drained s t th sched s2 :
  reachable s → Z.of_nat (length (threads s)) ≤ INT_MAX →
  threads s !! t = Some th → pc th = H_StopCheck → stopRequested s = true →
  exec s ((t, LTau) :: sched) = Some s2 → stopRequested s2 = false →
  ∃ pre d post sm,
    sched = pre ++ (d, LTau) :: post ∧
    exec s ((t, LTau) :: pre) = Some sm ∧
    (∀ k sk, exec s (take k ((t, LTau) :: pre)) = Some sk → stopRequested sk = true) ∧
    confirms_zero sm d.
Proof.
  intros HI%reachable_Inv Hn Hth Hpc Hsr Hexec Hoff.
  assert (unconfirmed s) as HP
    by (eapply counted_unconfirmed; try done; by rewrite Hpc).
  destruct (unconfirmed_exec _ _ _ HI HP Hexec Hoff)
    as (pre0 & d & post & sm & Heq & Hpre & Hkeep & Hc).
  destruct pre0 as [|[t0 l0] pre].
  - simpl in Heq, Hpre. injection Heq as <- ->. injection Hpre as <-.
    destruct Hc as (th' & Hth' & Hpc' & _). congruence.
  - simpl in Heq. injection Heq as -> -> ->.
    exists pre, d, post, sm. done.
Qed.

(** ** Draining with nothing to drain *)

Lemma at_pc_same th : at_pc th (pc th) = th.
Proof. by destruct th. Qed.

Lemma set_thread_lookup s t th :
  (t < length (threads s))%nat → threads (set_thread s t th) !! t = Some th.
Proof. intros Hlt. simpl. by apply list_lookup_insert_eq. Qed.

(** Running a thread step by step. *)
Ltac run_step Hlt :=
  erewrite step_lookup
    by (apply set_thread_lookup; simpl;
        repeat first [rewrite length_insert | rewrite length_fmap]; exact Hlt);
  unfold step_at; simpl.

Lemma stop_call_run s t th :
  threads s !! t = Some th → pc th = Idle →
  debuggersConnected s = 0 → stopLock s = None →
  exec s (stop_call t) = Some (with_stop s false) ∧
  ∀ k sk thk, exec s (take k (stop_call t)) = Some sk →
    threads sk !! t = Some thk → waiting (pc thk) = false.
Proof.
  intros Hth Hpc Hdc Hlk.
  assert (t < length (threads s))%nat as Hlt by (by eapply lookup_lt_Some).
  assert (∀ p, threads (set_thread s t (at_pc th p)) !! t = Some (at_pc th p)) as Hset
    by (intros p; by apply set_thread_lookup).
  split.
  - unfold stop_call, exec.
    rewrite (step_lookup _ _ _ _ Hth). unfold step_at. rewrite Hpc.
    run_step Hlt. rewrite Hlk.
    run_step Hlt. rewrite Hdc. simpl.
    run_step Hlt.
    run_step Hlt.
    f_equal. unfold set_thread, with_stop, with_lock, with_threads. simpl.
    rewrite !list_insert_insert_eq, Hlk.
    change (at_pc _ Idle) with (at_pc th Idle).
    rewrite <- Hpc, at_pc_same. by rewrite list_insert_id.
  - intros k sk thk. unfold stop_call.
    destruct k as [|k]; [simpl; intros [= <-]; rewrite Hth; intros [= <-]; by rewrite Hpc|].
    destruct k as [|[|[|[|k]]]]; simpl.
    all: rewrite (step_lookup _ _ _ _ Hth); unfold step_at; rewrite Hpc.
    all: try (run_step Hlt; rewrite Hlk).
    all: try (run_step Hlt; rewrite Hdc; simpl).
    all: try run_step Hlt.
    all: try run_step Hlt.
    all: rewrite ?take_nil; simpl.
    all: intros [= <-]; simpl; rewrite ?list_insert_insert_eq.
    all: rewrite ?list_lookup_insert_eq by done.
    all: try (intros [= <-]; done).
    all: rewrite Hth; intros [= <-]; by rewrite Hpc.
Qed.

Lemma exec_app sched1 sched2 : ∀ s s1,
  exec s sched1 = Some s1 → exec s (sched1 ++ sched2) = exec s1 sched2.
Proof.
  induction sched1 as [|[t l] sched1 IH]; simpl; intros s s1 H.
  - by injection H as <-.
  - destruct (step s t l); [by apply IH|discriminate H].
Qed.

Lemma connect_call_run s t th :
  threads s !! t = Some th → pc th = Idle →
  stopLock s = None → stopRequested s = false →
  ∃ s' th', exec s (connect_call t) = Some s' ∧
    threads s' !! t = Some th' ∧ pc th' = H_Process ∧ ws_open (loc th') = true ∧
    debuggersConnected s' = wrap_int (debuggersConnected s + 1) ∧
    stopRequested s' = false ∧ stopLock s' = None.
Proof.
  intros Hth Hpc Hlk Hsr.
  assert (t < length (threads s))%nat as Hlt by (by eapply lookup_lt_Some).
  unfold connect_call, exec.
  rewrite (step_lookup _ _ _ _ Hth). unfold step_at. rewrite Hpc.
  run_step Hlt. run_step Hlt. rewrite Hlk.
  run_step Hlt. run_step Hlt. run_step Hlt. run_step Hlt. run_step Hlt.
  run_step Hlt. run_step Hlt. run_step Hlt. rewrite Hsr.
  eexists _, _. split; [reflexivity|]. simpl.
  split.
  { apply list_lookup_insert_eq.
    by repeat first [rewrite length_insert | rewrite length_fmap]. }
  by split_and!.
Qed.

(** C3.  (1) A thread that calls [StopAllDebuggers] while
    [debuggersConnected] is zero and the lock is free runs the whole call on
    its own, without ever being at the wait of line 145, and leaves the state
    as it was with [stopRequested] false; the call can be made again at once.
    (2) Whenever a thread returns from [StopAllDebuggers], [stopRequested]
    is false, the count is zero and the lock is free.  (3) With the flag
    false and the lock free, a thread can open a connection and get through
    a turn of its loop with the socket still open.  (4) In any interleaving,
    a caller whose test of line 143 finds the count zero goes to the reset,
    not to the wait. *)
Theorem stop_without_connections s :
  reachable s →
  (∀ t th, threads s !! t = Some th → pc th = Idle →
     debuggersConnected s = 0 → stopLock s = None →
     exec s (stop_call t) = Some (with_stop s false) ∧
     (∀ k sk thk, exec s (take k (stop_call t)) = Some sk →
        threads sk !! t = Some thk → waiting (pc thk) = false) ∧
     exec s (stop_call t ++ stop_call t) = Some (with_stop s false)) ∧
  (∀ t th l s', threads s !! t = Some th → pc th = S_Unlock →
     step s t l = Some s' →
     (∃ th', threads s' !! t = Some th' ∧ pc th' = Idle) ∧
     stopRequested s' = false ∧ debuggersConnected s' = 0 ∧ stopLock s' = None) ∧
  (∀ t th, threads s !! t = Some th → pc th = Idle →
     stopLock s = None → stopRequested s = false →
     ∃ s' th', exec s (connect_call t) = Some s' ∧
       threads s' !! t = Some th' ∧ pc th' = H_Process ∧ ws_open (loc th') = true ∧
       debuggersConnected s' = wrap_int (debuggersConnected s + 1) ∧
       stopRequested s' = false ∧ stopLock s' = None) ∧
  (∀ t th l s', threads s !! t = Some th → pc th = S_Test →
     debuggersConnected s = 0 → step s t l = Some s' →
     ∃ th', threads s' !! t = Some th' ∧ pc th' = S_Reset).
Proof.
  intros HI%reachable_Inv. split_and!.
  - intros t th Hth Hpc Hdc Hlk.
    destruct (stop_call_run _ _ _ Hth Hpc Hdc Hlk) as [Hrun Hnowait].
    split_and!; try done.
    rewrite (exec_app _ _ _ _ Hrun).
    by destruct (stop_call_run (with_stop s false) t th Hth Hpc Hdc Hlk) as [-> _].
  - intros t th l s' Hth Hpc Hstep.
    pose proof (inv_local _ HI _ _ Hth) as Hloc. unfold local_ok in Hloc.
    rewrite Hpc in Hloc. destruct Hloc as [Hsr Hdc].
    rewrite (step_lookup _ _ _ _ Hth) in Hstep. unfold step_at in Hstep.
    rewrite Hpc in Hstep. destruct l; try discriminate Hstep.
    injection Hstep as <-. simpl. split_and!; try done.
    eexists. split; [apply list_lookup_insert_eq; by eapply lookup_lt_Some|].
    reflexivity.
  - intros t th Hth Hpc Hlk Hsr. by eapply connect_call_run.
  - intros t th l s' Hth Hpc Hdc Hstep.
    rewrite (step_lookup _ _ _ _ Hth) in Hstep. unfold step_at in Hstep.
    rewrite Hpc in Hstep. destruct l; try discriminate Hstep.
    rewrite decide_False in Hstep by (intros Hne; by apply Hne).
    injection Hstep as <-. eexists.
    split; [apply set_thread_lookup; by eapply lookup_lt_Some|reflexivity].
Qed.

(** ** Frames on a running connection *)

(** A frame whose handler leaves the host alone, alone in its batch: the
    thread logs the handler's events and goes on to the broadcasters. *)
Lemma step_Process_pure_frame s tid th f evs0 :
  threads s !! tid = Some th → pc th = H_Process → ws_open (loc th) = true →
  on_frame (eventHandlers (loc th)) f (host s) = (host s, evs0) →
  step s tid (LProcess true [f]) =
    Some (set_thread s tid (at_pc (emit th evs0) H_Broadcast)).
Proof.
  intros Hth Hpc Hopen Hf. rewrite (step_lookup _ _ _ _ Hth). unfold step_at.
  rewrite Hpc. unfold ws_Process. rewrite Hopen. simpl. rewrite Hf. simpl.
  by rewrite app_nil_r.
Qed.

Lemma ws_Process_one_pure_frame c f h evs0 :
  ws_open c = true → on_frame (eventHandlers c) f h = (h, evs0) →
  ws_Process c true [f] h = (true, c, h, evs0).
Proof.
  intros Hopen Hf. unfold ws_Process. rewrite Hopen. simpl. rewrite Hf. simpl.
  by rewrite app_nil_r.
Qed.

(** C4.  A text frame that parses to an object whose [event] member is a
    string that is no key of [eventHandlers]: the handler looks the name up,
    sends the one error event "Bad message: unknown event" (with the
    request's ticket, if any) and calls no handler; host and connection are
    as before, [Process] returns true, the rest of the batch is handled as
    it would have been, and the thread goes on with its loop. *)
Theorem unknown_event_reply c t h fs ev :
  ws_open c = true →
  JsonReader t = Some (JSON_OBJECT fs) →
  assoc_find "event" fs = Some (JSON_STRING ev) →
  eventHandlers c !! ev = None →
  let err := {| message := "Bad message: unknown event"; level := LERROR;
                ticket := assoc_find "ticket" fs |} in
  TextHandler (eventHandlers c) t h = (h, [EvFind ev; EvSend (PError err)]) ∧
  sent (TextHandler (eventHandlers c) t h).2 = [PError err] ∧
  filter is_call (TextHandler (eventHandlers c) t h).2 = [] ∧
  filter is_close (TextHandler (eventHandlers c) t h).2 = [] ∧
  ws_Process c true [Text t] h = (true, c, h, [EvFind ev; EvSend (PError err)]) ∧
  (∀ rest, ws_Process c true (Text t :: rest) h =
     (let '(more, c', h', evs) := ws_Process c true rest h in
      (more, c', h', [EvFind ev; EvSend (PError err)] ++ evs))) ∧
  (∀ s tid th, threads s !! tid = Some th → pc th = H_Process →
     loc th = c → host s = h →
     step s tid (LProcess true [Text t]) =
       Some (set_thread s tid
               (at_pc (emit th [EvFind ev; EvSend (PError err)]) H_Broadcast))).
Proof.
  intros Hopen Hparse Hev Hnone err.
  pose proof (TextHandler_unknown _ t h _ _ Hparse Hev Hnone) as Heq.
  fold err in Heq. rewrite Heq. split_and!; try done.
  - by apply ws_Process_one_pure_frame.
  - intros rest. by apply ws_Process_pure_frame.
  - intros s tid th Hth Hpc <- <-. by apply step_Process_pure_frame.
Qed.

(** C5.  A binary frame, whatever its bytes and whatever the handler table
    and the host: exactly one event is sent, the error "Bad message" without
    a ticket; nothing is looked up and no handler is called.  On an open
    connection [Process] returns true and the loop goes on. *)
Theorem binary_frame_reply (handlers : gmap string DebuggerEventHandler) d h :
  on_frame handlers (Binary d) h = (h, [EvSend (PError bad_message_error)]) ∧
  sent (on_frame handlers (Binary d) h).2 = [PError bad_message_error] ∧
  filter is_find (on_frame handlers (Binary d) h).2 = [] ∧
  filter is_call (on_frame handlers (Binary d) h).2 = [] ∧
  (∀ c rest, ws_open c = true →
     ws_Process c true (Binary d :: rest) h =
       (let '(more, c', h', evs) := ws_Process c true rest h in
        (more, c', h', [EvSend (PError bad_message_error)] ++ evs))) ∧
  (∀ s tid th, threads s !! tid = Some th → pc th = H_Process →
     ws_open (loc th) = true → host s = h →
     step s tid (LProcess true [Binary d]) =
       Some (set_thread s tid
               (at_pc (emit th [EvSend (PError bad_message_error)]) H_Broadcast))).
Proof.
  split_and!; try done.
  - intros c rest Hopen. by apply ws_Process_pure_frame.
  - intros s tid th Hth Hpc Hopen <-. by apply step_Process_pure_frame.
Qed.

(** C6.  A text frame that is not valid JSON: the one event sent is the
    error "Bad message: invalid JSON", no handler is looked up or called and
    the socket is not closed; [Process] returns true with the connection and
    the host as they were, so the frames that follow in the batch, and every
    later batch, are handled exactly as without the bad frame. *)
Theorem invalid_json_reply c t h :
  ws_open c = true →
  JsonReader t = None →
  TextHandler (eventHandlers c) t h = (h, [EvSend (PError invalid_json_error)]) ∧
  filter is_call (TextHandler (eventHandlers c) t h).2 = [] ∧
  filter is_close (TextHandler (eventHandlers c) t h).2 = [] ∧
  ws_Process c true [Text t] h = (true, c, h, [EvSend (PError invalid_json_error)]) ∧
  (∀ rest, ws_Process c true (Text t :: rest) h =
     (let '(more, c', h', evs) := ws_Process c true rest h in
      (more, c', h', [EvSend (PError invalid_json_error)] ++ evs))) ∧
  (∀ s tid th, threads s !! tid = Some th → pc th = H_Process →
     loc th = c → host s = h →
     ∃ s' th', step s tid (LProcess true [Text t]) = Some s' ∧
       threads s' !! tid = Some th' ∧ pc th' = H_Broadcast ∧
       loc th' = c ∧ host s' = h ∧
       trace th' = trace th ++ [EvSend (PError invalid_json_error)]).
Proof.
  intros Hopen Hbad.
  pose proof (TextHandler_invalid (eventHandlers c) t h Hbad) as Heq.
  rewrite Heq. split_and!; try done.
  - by apply ws_Process_one_pure_frame.
  - intros rest. by apply ws_Process_pure_frame.
  - intros s tid th Hth Hpc <- <-.
    eexists _, _. split; [by apply step_Process_pure_frame|].
    split; [apply set_thread_lookup; by eapply lookup_lt_Some|done].
Qed.

(** C9.  The event sent for a text that fails to parse is built from the
    message and the level alone: it is the same for every such text and
    every handler table, and it has no ticket. *)
Theorem invalid_json_error_has_no_ticket (handlers : gmap string DebuggerEventHandler) t h :
  JsonReader t = None →
  (TextHandler handlers t h).2 =
    [EvSend (PError (DebuggerErrorEvent "Bad message: invalid JSON" LERROR JSON_NULL))] ∧
  (∀ e, PError e ∈ sent (TextHandler handlers t h).2 → ticket e = None) ∧
  (∀ (handlers' : gmap string DebuggerEventHandler) t',
     JsonReader t' = None →
     (TextHandler handlers' t' h).2 = (TextHandler handlers t h).2).
Proof.
  intros Hbad. rewrite (TextHandler_invalid handlers t h Hbad). split_and!.
  - done.
  - simpl. intros e He. apply list_elem_of_singleton in He. by injection He as ->.
  - intros handlers' t' Hbad'. by rewrite (TextHandler_invalid handlers' t' h Hbad').
Qed.

(** ** Setting up and tearing down the subscribers *)

(** The init loop calls the modules in table order and appends what each
    returns. *)
Lemma init_subscribers_order subs : ∀ i map sd,
  ∃ map' ps,
    init_subscribers subs i map sd = (map', sd ++ ps, EvInit <$> seq i (length subs)) ∧
    length ps = length subs ∧
    (∀ k info p, subs !! k = Some info → ps !! k = Some p → ∃ m, p = (init info m).1).
Proof.
  induction subs as [|info subs IH]; intros i map sd.
  - exists map, []. simpl. rewrite app_nil_r. split_and!; try done.
  - simpl. destruct (init info map) as [p map1] eqn:Hinit.
    destruct (IH (S i) map1 (sd ++ [p])) as (map' & ps & -> & Hlen & Hps).
    exists map', (p :: ps). rewrite <- app_assoc. simpl. split_and!; try done.
    + by rewrite Hlen.
    + intros [|k] info' p'; simpl.
      * intros [= <-] [= <-]. exists map. by rewrite Hinit.
      * apply Hps.
Qed.

(** The teardown loop, given the pointers the modules returned and the
    modules without a teardown having returned null: it visits the modules
    in table order, calls every teardown that is declared with the module's
    own pointer, and no assertion fails. *)
Lemma shutdown_subscribers_order subs : ∀ i sd h,
  (∀ k info, subs !! k = Some info →
     ∃ p, sd !! (i + k)%nat = Some p ∧ (shutdown info = None → p = nullptr)) →
  ∃ h' evs,
    shutdown_subscribers subs i sd h = inr (h', evs) ∧
    omap visited evs = seq i (length subs) ∧
    (∀ k info, subs !! k = Some info →
       ∃ p, sd !! (i + k)%nat = Some p ∧
         match shutdown info with
         | Some _ => EvShutdown (i + k) p ∈ evs
         | None => p = nullptr ∧ EvAssert (i + k) ∈ evs
         end).
Proof.
  induction subs as [|info subs IH]; intros i sd h Hsd.
  - exists h, []. split_and!; try done.
  - destruct (Hsd 0%nat info eq_refl) as (p & Hp & Hnull).
    rewrite Nat.add_0_r in Hp. simpl. rewrite Hp.
    assert (∀ h1, ∃ h' evs,
      shutdown_subscribers subs (S i) sd h1 = inr (h', evs) ∧
      omap visited evs = seq (S i) (length subs) ∧
      (∀ k info, subs !! k = Some info →
         ∃ p, sd !! (S i + k)%nat = Some p ∧
           match shutdown info with
           | Some _ => EvShutdown (S i + k) p ∈ evs
           | None => p = nullptr ∧ EvAssert (S i + k) ∈ evs
           end)) as Hrest.
    { intros h1. apply IH. intros k info' Hk.
      destruct (Hsd (S k) info' Hk) as (q & Hq & Hqn).
      exists q. by rewrite Nat.add_succ_comm. }
    destruct (shutdown info) as [f|] eqn:Hshut.
    + destruct (Hrest (f p h)) as (h' & evs & -> & Hvis & Hall).
      exists h', (EvShutdown i p :: evs). split_and!; try done.
      * cbn [seq length]. by rewrite <- Hvis.
      * intros [|k] info'; simpl.
        -- intros [= <-]. exists p. rewrite Nat.add_0_r, Hshut.
           split; [done|]. apply list_elem_of_here.
        -- intros Hk. destruct (Hall k info' Hk) as (q & Hq & Hin).
           exists q. rewrite <- Nat.add_succ_comm. split; [done|].
           destruct (shutdown info'); [|destruct Hin; split; [done|]];
             by apply list_elem_of_further.
    + rewrite (Hnull eq_refl). rewrite decide_True by done.
      destruct (Hrest h) as (h' & evs & -> & Hvis & Hall).
      exists h', (EvAssert i :: evs). split_and!; try done.
      * cbn [seq length]. by rewrite <- Hvis.
      * intros [|k] info'; simpl.
        -- intros [= <-]. exists p. rewrite Nat.add_0_r, Hshut.
           split; [done|]. split; [by apply Hnull|]. apply list_elem_of_here.
        -- intros Hk. destruct (Hall k info' Hk) as (q & Hq & Hin).
           exists q. rewrite <- Nat.add_succ_comm. split; [done|].
           destruct (shutdown info'); [|destruct Hin; split; [done|]];
             by apply list_elem_of_further.
Qed.

Lemma omap_inited_EvInit (l : list nat) : omap inited (EvInit <$> l) = l.
Proof. induction l as [|i l IH]; [done|]. simpl. f_equal. exact IH. Qed.

(** Init followed by teardown, for any table whose modules without a
    teardown return a null context from their init. *)
Lemma teardown_follows_init subs h :
  (∀ info m, info ∈ subs → shutdown info = None → (init info m).1 = nullptr) →
  ∃ map sd ievs h' tevs,
    init_subscribers subs 0 ∅ [] = (map, sd, ievs) ∧
    shutdown_subscribers subs 0 sd h = inr (h', tevs) ∧
    omap visited tevs = omap inited ievs ∧
    (∀ k info, subs !! k = Some info →
       ∃ p, sd !! k = Some p ∧
         match shutdown info with
         | Some _ => EvShutdown k p ∈ tevs
         | None => p = nullptr ∧ EvAssert k ∈ tevs
         end).
Proof.
  intros Hcontract.
  destruct (init_subscribers_order subs 0 ∅ []) as (map & ps & Hinit & Hlen & Hps).
  simpl in Hinit.
  destruct (shutdown_subscribers_order subs 0 ps h) as (h' & tevs & Hdown & Hvis & Hall).
  { intros k info Hk. simpl.
    destruct (ps !! k) as [p|] eqn:Hp.
    - exists p. split; [done|]. intros Hnone.
      destruct (Hps _ _ _ Hk Hp) as (m & ->). apply Hcontract; [|done].
      by eapply list_elem_of_lookup_2.
    - apply lookup_ge_None in Hp. apply lookup_lt_Some in Hk. lia. }
  exists map, ps, (EvInit <$> seq 0 (length subs)), h', tevs.
  split_and!; try done. by rewrite omap_inited_EvInit.
Qed.

Lemma subscribers_contract info (m : gmap string DebuggerEventHandler) :
  info ∈ subscribers → shutdown info = None → (init info m).1 = nullptr.
Proof.
  unfold subscribers. intros Hin _.
  apply elem_of_cons in Hin as [->|Hin]; [done|].
  apply list_elem_of_singleton in Hin as ->. done.
Qed.

(** C7.  In every reachable state no thread has hit the assertion of line
    133, and for a thread about to run the teardown loop: [subscriberData]
    is what the init loop produced, the teardown visits the modules in the
    order of the init calls, calls the teardown of every module that declares
    one with the context its init returned, finds the context of every other
    module null, and the thread goes on to [UpdateConnected(-1)]. *)
Theorem teardown_in_init_order s :
  reachable s →
  (∀ t th, threads s !! t = Some th → pc th ≠ Aborted) ∧
  (∀ t th, threads s !! t = Some th → pc th = H_Teardown →
     ∃ map ievs h' tevs,
       init_subscribers subscribers 0 ∅ [] = (map, subscriberData (loc th), ievs) ∧
       shutdown_subscribers subscribers 0 (subscriberData (loc th)) (host s)
         = inr (h', tevs) ∧
       omap visited tevs = omap inited ievs ∧
       (∀ k info, subscribers !! k = Some info →
          ∃ p, subscriberData (loc th) !! k = Some p ∧
            match shutdown info with
            | Some _ => EvShutdown k p ∈ tevs
            | None => p = nullptr ∧ EvAssert k ∈ tevs
            end) ∧
       step s t LTau =
         Some (set_thread (with_host s h') t
                 (at_pc (emit th (tevs ++ [EvDelete])) (H_Update false ULock)))).
Proof.
  intros HI%reachable_Inv. split.
  - intros t th Hth Hpc. pose proof (inv_local _ HI _ _ Hth) as Hloc.
    unfold local_ok in Hloc. by rewrite Hpc in Hloc.
  - intros t th Hth Hpc. pose proof (inv_local _ HI _ _ Hth) as Hloc.
    unfold local_ok in Hloc. rewrite Hpc in Hloc.
    destruct (teardown_follows_init subscribers (host s) subscribers_contract)
      as (map & sd & ievs & h' & tevs & Hinit & Hdown & Hvis & Hall).
    destruct init_subscribers_table as (map0 & Htable).
    rewrite Htable in Hinit. injection Hinit as <- <- <-.
    rewrite Hloc. exists map0, [EvInit 0; EvInit 1], h', tevs.
    split_and!; try done.
    rewrite (step_lookup _ _ _ _ Hth). unfold step_at.
    by rewrite Hpc, Hloc, Hdown.
Qed.

(** ** A refused upgrade *)

(** C8.  When [CreateAsUpgrade] returns null the call returns at once: the
    counter, the flag, the lock, the host and every other thread are as they
    were, and the thread itself has sent and logged nothing, set up no
    subscriber and kept its name; a thread that was idle before the call is
    idle again in the very state the call started from. *)
Theorem refused_upgrade_changes_nothing s t th :
  threads s !! t = Some th →
  (pc th = H_Upgrade →
     ∃ s' th', step s t (LUpgrade false) = Some s' ∧
       debuggersConnected s' = debuggersConnected s ∧
       stopRequested s' = stopRequested s ∧
       stopLock s' = stopLock s ∧ host s' = host s ∧
       inflight (threads s') = inflight (threads s) ∧
       (∀ t', t' ≠ t → threads s' !! t' = threads s !! t') ∧
       threads s' !! t = Some th' ∧ pc th' = Idle ∧
       trace th' = trace th ∧ loc th' = loc th ∧ tname th' = tname th) ∧
  (pc th = Idle →
     exec s [(t, LCallHandle); (t, LUpgrade false)] = Some s).
Proof.
  intros Hth.
  assert (t < length (threads s))%nat as Hlt by (by eapply lookup_lt_Some).
  split; intros Hpc.
  - exists (set_thread s t (at_pc th Idle)), (at_pc th Idle).
    rewrite (step_lookup _ _ _ _ Hth). unfold step_at. rewrite Hpc.
    split_and!; try done.
    + simpl. pose proof (inflight_insert (threads s) t th (at_pc th Idle) Hth) as Hins.
      rewrite Hpc in Hins. simpl in Hins. lia.
    + intros t' Hne. simpl. by rewrite list_lookup_insert_ne.
    + by apply set_thread_lookup.
  - unfold exec. rewrite (step_lookup _ _ _ _ Hth). unfold step_at. rewrite Hpc.
    run_step Hlt. f_equal. unfold set_thread, with_threads. simpl.
    rewrite list_insert_insert_eq.
    change (at_pc _ Idle) with (at_pc th Idle).
    rewrite <- Hpc, at_pc_same, list_insert_id by done. by destruct s.
Qed.

(** ** Every frame, whatever it holds *)

Lemma filter_is_call_sends (out : list Payload) :
  filter is_call (EvSend <$> out) = [].
Proof.
  induction out as [|p out IH]; [done|].
  rewrite fmap_cons, filter_cons_False; [exact IH|by intros ?].
Qed.

Lemma filter_is_close_sends (out : list Payload) :
  filter is_close (EvSend <$> out) = [].
Proof.
  induction out as [|p out IH]; [done|].
  rewrite fmap_cons, filter_cons_False; [exact IH|by intros ?].
Qed.

Lemma filter_is_call_Finish req : filter is_call (Finish req) = [].
Proof. unfold Finish. by destruct (responseSent_ req). Qed.

Lemma filter_is_close_Finish req : filter is_close (Finish req) = [].
Proof. unfold Finish. by destruct (responseSent_ req). Qed.

(** The cases of [on_frame]: no handler runs and one error goes out, or the
    registered handler runs once. *)
Lemma on_frame_split (handlers : gmap string DebuggerEventHandler) f h :
  filter is_close (on_frame handlers f h).2 = [] ∧
  ((filter is_call (on_frame handlers f h).2 = [] ∧
    (on_frame handlers f h).1 = h ∧
    ∃ e, sent (on_frame handlers f h).2 = [PError e] ∧
         level e = LERROR ∧ message e ∈ fixed_errors) ∨
   (∃ t parsed ev eventFunc,
      f = Text t ∧ JsonReader t = Some parsed ∧
      JsonGet_getString (reader_root parsed) "event" = Some ev ∧
      handlers !! ev = Some eventFunc ∧
      filter is_call (on_frame handlers f h).2 = [EvCall ev] ∧
      on_frame handlers f h =
        (let '(req', h', out) :=
           eventFunc {| name := ev; data := reader_root parsed;
                        responseSent_ := false |} h in
         (h', EvFind ev :: EvCall ev :: (EvSend <$> out) ++ Finish req')))).
Proof.
  destruct f as [t|d]; simpl.
  2: { split; [done|]. left. split_and!; try done.
       eexists. split_and!; try done. unfold fixed_errors. set_solver. }
  unfold TextHandler. destruct (JsonReader t) as [parsed|] eqn:Hparse.
  2: { split; [done|]. left. split_and!; try done.
       eexists. split_and!; try done. unfold fixed_errors. set_solver. }
  cbv zeta.
  destruct (if JsonGet_bool (reader_root parsed)
            then JsonGet_getString (reader_root parsed) "event" else None)
    as [ev|] eqn:Hev.
  2: { split; [done|]. left. split_and!; try done.
       eexists. split_and!; try done. unfold fixed_errors. set_solver. }
  assert (JsonGet_getString (reader_root parsed) "event" = Some ev) as Hget
    by (by destruct (JsonGet_bool (reader_root parsed))).
  unfold DebuggerEventHandler in *.
  destruct (handlers !! ev) as [eventFunc|] eqn:Hfind.
  2: { split; [done|]. left. split_and!; try done.
       eexists. split_and!; try done. unfold fixed_errors. set_solver. }
  destruct (eventFunc _ h) as [[req' h'] out] eqn:Hcall. simpl.
  assert (filter is_close (EvFind ev :: EvCall ev :: (EvSend <$> out) ++ Finish req') = [])
    as Hclose.
  { rewrite filter_cons_False by (by intros ?). rewrite filter_cons_False by (by intros ?).
    by rewrite filter_app, filter_is_close_sends, filter_is_close_Finish. }
  assert (filter is_call (EvFind ev :: EvCall ev :: (EvSend <$> out) ++ Finish req')
          = [EvCall ev]) as Hcalls.
  { rewrite filter_cons_False by (by intros ?). rewrite filter_cons_True by done.
    by rewrite filter_app, filter_is_call_sends, filter_is_call_Finish. }
  split; [done|]. right. exists t, parsed, ev, eventFunc.
  split_and!; try done. by rewrite Hcall.
Qed.

(** X1.  What a frame can lead to.  Either no handler runs: the host is as
    before and exactly one event goes out, an error of severity error whose
    message is one of the four fixed ones.  Or the frame is a text that
    parses, names a registered event, and the handler registered under that
    very name runs once, on a request that holds the name and the root and
    has no response yet; after it comes [Finish].  In neither case is the
    socket closed. *)
Theorem on_frame_cases (handlers : gmap string DebuggerEventHandler) f h :
  filter is_close (on_frame handlers f h).2 = [] ∧
  ((filter is_call (on_frame handlers f h).2 = [] ∧
    (on_frame handlers f h).1 = h ∧
    ∃ e, sent (on_frame handlers f h).2 = [PError e] ∧
         level e = LERROR ∧ message e ∈ fixed_errors) ∨
   (∃ t parsed ev eventFunc,
      f = Text t ∧ JsonReader t = Some parsed ∧
      JsonGet_getString (reader_root parsed) "event" = Some ev ∧
      handlers !! ev = Some eventFunc ∧
      filter is_call (on_frame handlers f h).2 = [EvCall ev] ∧
      on_frame handlers f h =
        (let '(req', h', out) :=
           eventFunc {| name := ev; data := reader_root parsed;
                        responseSent_ := false |} h in
         (h', EvFind ev :: EvCall ev :: (EvSend <$> out) ++ Finish req')))).
Proof. apply on_frame_split. Qed.

(** X2.  A text that parses but has no string member [event] (the value is
    not an object, the member is missing, or it is not a string): the one
    event sent is the error "Bad message: no event property", with the
    ticket of the object if the value is an object that has one; nothing is
    looked up, no handler runs and the host is as before. *)
Theorem missing_event_reply (handlers : gmap string DebuggerEventHandler) t h parsed :
  JsonReader t = Some parsed →
  JsonGet_getString (reader_root parsed) "event" = None →
  TextHandler handlers t h =
    (h, [EvSend (PError {| message := "Bad message: no event property";
                           level := LERROR;
                           ticket := match parsed with
                                     | JSON_OBJECT fs => assoc_find "ticket" fs
                                     | _ => None
                                     end |})]).
Proof.
  intros Hparse Hev. unfold TextHandler. rewrite Hparse. cbv zeta. rewrite Hev.
  replace (if JsonGet_bool (reader_root parsed) then None else None)
    with (@None string) by (by destruct (JsonGet_bool _)).
  by destruct parsed.
Qed.

(** The three ways of having no string member [event]. *)
Lemma getString_event_None parsed :
  JsonGet_getString (reader_root parsed) "event" = None ↔
  match parsed with
  | JSON_OBJECT fs =>
      match assoc_find "event" fs with Some (JSON_STRING _) => False | _ => True end
  | _ => True
  end.
Proof.
  destruct parsed as [| | | | |fs]; try done.
  unfold reader_root, JsonGet_getString, JsonGet_get.
  by destruct (assoc_find "event" fs) as [[]|].
Qed.

(** ** Batches of frames *)

Lemma deliver_no_close (handlers : gmap string DebuggerEventHandler) fs h :
  filter is_close (deliver handlers fs h).2 = [].
Proof.
  revert h. induction fs as [|f fs IH]; intros h; [done|].
  rewrite deliver_cons.
  destruct (on_frame_split handlers f h) as [Hclose _].
  destruct (on_frame handlers f h) as [h1 evs1].
  specialize (IH h1). destruct (deliver handlers fs h1) as [h2 evs2].
  cbn [fst snd] in *. by rewrite filter_app, Hclose, IH.
Qed.

Lemma texts_cons f fs :
  length (texts (f :: fs)) = (length (texts [f]) + length (texts fs))%nat.
Proof. by destruct f. Qed.

Lemma sent_app evs1 evs2 : sent (evs1 ++ evs2) = sent evs1 ++ sent evs2.
Proof. apply omap_app. Qed.

(** X3.  Handling a batch never closes the socket and calls at most one
    handler per text frame; if it calls none, the host is as before and
    every frame of the batch, text or binary, got exactly one reply. *)
Theorem deliver_replies (handlers : gmap string DebuggerEventHandler) fs h :
  filter is_close (deliver handlers fs h).2 = [] ∧
  (length (filter is_call (deliver handlers fs h).2) ≤ length (texts fs))%nat ∧
  (filter is_call (deliver handlers fs h).2 = [] →
     (deliver handlers fs h).1 = h ∧
     length (sent (deliver handlers fs h).2) = length fs).
Proof.
  revert h. induction fs as [|f fs IH]; intros h; [by simpl|].
  rewrite deliver_cons, texts_cons.
  destruct (on_frame_split handlers f h) as [Hclose Hcases].
  destruct (on_frame handlers f h) as [h1 evs1] eqn:Hf.
  destruct (IH h1) as (IHclose & IHcalls & IHnone).
  destruct (deliver handlers fs h1) as [h2 evs2] eqn:Hrest.
  cbn [fst snd] in *.
  assert (length (filter is_call evs1) ≤ length (texts [f]))%nat as Hone.
  { destruct Hcases as [(-> & _)|(t & parsed & ev & fn & -> & _ & _ & _ & -> & _)];
      simpl; lia. }
  split_and!.
  - by rewrite filter_app, Hclose, IHclose.
  - rewrite filter_app, length_app. lia.
  - rewrite filter_app. intros [Hnil1 Hnil2]%app_eq_nil.
    destruct (IHnone Hnil2) as [-> Hlen].
    destruct Hcases as [(_ & -> & e & Hsent & _)|(t & parsed & ev & fn & _ & _ & _ & _ & Hc & _)];
      [|rewrite Hnil1 in Hc; discriminate Hc].
    split; [done|]. rewrite sent_app, length_app, Hsent, Hlen. done.
Qed.

(** ** More that holds in every reachable state *)

(** A property kept by every step from a state where [Inv] holds is kept
    along every run. *)
Lemma reachable_ind (P : State → Prop) :
  (∀ n h0, P (initial n h0)) →
  (∀ s t l s', Inv s → P s → step s t l = Some s' → P s') →
  ∀ s, reachable s → P s.
Proof.
  intros Hinit Hstep s (n & h0 & sched & Hexec).
  assert (∀ sched s0, Inv s0 → P s0 → exec s0 sched = Some s → P s) as Hrun.
  { clear sched Hexec. induction sched as [|[t l] sched IH]; simpl; intros s0 HI HP H.
    - by injection H as <-.
    - destruct (step s0 t l) as [s1|] eqn:Hs; [|discriminate H].
      eapply IH; [by eapply step_Inv| by eapply Hstep |exact H]. }
  eapply Hrun; [apply Inv_initial|apply Hinit|exact Hexec].
Qed.

Lemma lock_owner_exists s :
  reachable s → ∀ t, stopLock s = Some t → is_Some (threads s !! t).
Proof.
  revert s.
  apply (reachable_ind (λ s, ∀ t, stopLock s = Some t → is_Some (threads s !! t))).
  - intros n h0 t. discriminate.
  - intros s t l s' [Hlock _ Hlocal _] IH H. step_cases H s t l Hlocal.
    all: simpl; intros t' Hlk'; try discriminate Hlk'.
    all: apply lookup_lt_is_Some; rewrite ?length_insert, ?length_fmap.
    all: first [ injection Hlk' as <-; by eapply lookup_lt_Some
               | apply lookup_lt_is_Some; apply IH; congruence ].
Qed.

(** X4.  [stopLock] excludes: in every reachable state at most one thread is
    inside a region guarded by the lock (the body of [UpdateConnected], the
    body of [StopAllDebuggers] outside its wait), that thread is the one the
    lock records, and the lock is free exactly when no thread is inside. *)
Theorem stopLock_excludes s :
  reachable s →
  (∀ t1 t2 th1 th2, threads s !! t1 = Some th1 → threads s !! t2 = Some th2 →
     holds (pc th1) = true → holds (pc th2) = true → t1 = t2) ∧
  (∀ t, stopLock s = Some t ↔
        ∃ th, threads s !! t = Some th ∧ holds (pc th) = true) ∧
  (stopLock s = None ↔
     ∀ t th, threads s !! t = Some th → holds (pc th) = false).
Proof.
  intros Hr. pose proof (reachable_Inv _ Hr) as HI.
  pose proof (inv_lock _ HI) as Hlock. split_and!.
  - intros t1 t2 th1 th2 H1 H2 Hh1 Hh2.
    apply (Hlock _ _ H1) in Hh1. apply (Hlock _ _ H2) in Hh2. congruence.
  - intros t. split.
    + intros Hlk. destruct (lock_owner_exists _ Hr _ Hlk) as [th Hth].
      exists th. split; [done|]. by apply (Hlock _ _ Hth).
    + intros (th & Hth & Hh). by apply (Hlock _ _ Hth).
  - split.
    + intros Hnone t th Hth. destruct (holds (pc th)) eqn:Hh; [|done].
      apply (Hlock _ _ Hth) in Hh. congruence.
    + intros Hall. destruct (stopLock s) as [t|] eqn:Hlk; [|done].
      destruct (lock_owner_exists _ Hr _ Hlk) as [th Hth].
      pose proof (proj2 (Hlock _ _ Hth) eq_refl) as Hh.
      rewrite (Hall _ _ Hth) in Hh. discriminate Hh.
Qed.

(** X5.  Nobody sleeps on the lock's account: in every reachable state the
    thread that holds [stopLock] can run on its own, and after at most four
    of its steps the lock is free (by the end of [UpdateConnected], by the
    wait of line 145, or by the return of [StopAllDebuggers]). *)
Theorem stopLock_is_released s t :
  reachable s → stopLock s = Some t →
  ∃ n s', (1 ≤ n ≤ 4)%nat ∧
    exec s (replicate n (t, LTau)) = Some s' ∧ stopLock s' = None.
Proof.
  intros Hr Hlk. pose proof (reachable_Inv _ Hr) as HI.
  destruct (lock_owner_exists _ Hr _ Hlk) as [th Hth].
  pose proof (proj2 (inv_lock _ HI _ _ Hth) Hlk) as Hh.
  assert (t < length (threads s))%nat as Hlt by (by eapply lookup_lt_Some).
  destruct (pc th) as [| |opening [| |tmp| |]| | | | | | | | | | | | | |] eqn:Hpc;
    try discriminate Hh.
  - exists 4%nat. eexists. split; [lia|]. simpl replicate. unfold exec.
    rewrite (step_lookup _ _ _ _ Hth). unfold step_at. rewrite Hpc.
    run_step Hlt. run_step Hlt. run_step Hlt. split; reflexivity.
  - exists 3%nat. eexists. split; [lia|]. simpl replicate. unfold exec.
    rewrite (step_lookup _ _ _ _ Hth). unfold step_at. rewrite Hpc.
    run_step Hlt. run_step Hlt. split; reflexivity.
  - exists 2%nat. eexists. split; [lia|]. simpl replicate. unfold exec.
    rewrite (step_lookup _ _ _ _ Hth). unfold step_at. rewrite Hpc.
    run_step Hlt. split; reflexivity.
  - exists 1%nat. eexists. split; [lia|]. simpl replicate. unfold exec.
    rewrite (step_lookup _ _ _ _ Hth). unfold step_at. rewrite Hpc.
    split; reflexivity.
  - exists 3%nat. simpl replicate. unfold exec.
    rewrite (step_lookup _ _ _ _ Hth). unfold step_at. rewrite Hpc.
    destruct (decide (debuggersConnected s ≠ 0)).
    + eexists. split; [lia|]. run_step Hlt. run_step Hlt. split; reflexivity.
    + eexists. split; [lia|]. run_step Hlt. run_step Hlt. split; reflexivity.
  - exists 2%nat. eexists. split; [lia|]. simpl replicate. unfold exec.
    rewrite (step_lookup _ _ _ _ Hth). unfold step_at. rewrite Hpc.
    run_step Hlt. split; reflexivity.
  - exists 1%nat. eexists. split; [lia|]. simpl replicate. unfold exec.
    rewrite (step_lookup _ _ _ _ Hth). unfold step_at. rewrite Hpc.
    split; reflexivity.
  - exists 2%nat. eexists. split; [lia|]. simpl replicate. unfold exec.
    rewrite (step_lookup _ _ _ _ Hth). unfold step_at. rewrite Hpc.
    run_step Hlt. split; reflexivity.
  - exists 1%nat. eexists. split; [lia|]. simpl replicate. unfold exec.
    rewrite (step_lookup _ _ _ _ Hth). unfold step_at. rewrite Hpc.
    split; reflexivity.
Qed.

Lemma notify_pending_other s s' t th' :
  threads s' = <[t := th']> (threads s) →
  (∀ th o, threads s !! t = Some th → pc th ≠ H_Update o UNotify) →
  notify_pending s → notify_pending s'.
Proof.
  intros Hths Hnot (tn & thn & o & Hn & Hpc).
  exists tn, thn, o. split; [|done]. rewrite Hths.
  destruct (decide (tn = t)) as [->|Hne]; [by destruct (Hnot _ _ Hn Hpc)|].
  by rewrite list_lookup_insert_ne.
Qed.

Lemma wait_ok_wake s s' y :
  debuggersConnected s' = debuggersConnected s →
  wait_ok s y → wait_ok s' (wake y).
Proof.
  unfold wait_ok, wake. intros Hdc.
  destruct (pc y) eqn:Hpy; simpl; rewrite ?Hpy; try done. by rewrite Hdc.
Qed.

Lemma waiters_ok s :
  reachable s → ∀ t th, threads s !! t = Some th → wait_ok s th.
Proof.
  revert s. apply (reachable_ind (λ s, ∀ t th, threads s !! t = Some th → wait_ok s th)).
  - intros n h0 t th [-> _]%lookup_replicate. done.
  - intros s t l s' [Hlock _ Hlocal _] IH H. step_cases H s t l Hlocal.
    all: pose proof (Hlock _ _ Hth) as Hself; rewrite Hpc in Hself; simpl in Hself.
    all: pose proof (IH _ _ Hth) as IHself; unfold wait_ok in IHself;
         rewrite Hpc in IHself.
    all: simpl; intros t' x Hx; apply lookup_set_thread in Hx as [[-> ->]|[Hne Hx]].
    all: try (unfold wait_ok; simpl; first [done | by left]).
    all: try (apply lookup_wake in Hx as (y & Hx & ->);
              apply (wait_ok_wake s); [done|by eapply IH]).
    all: pose proof (IH _ _ Hx) as IHx; pose proof (Hlock _ _ Hx) as Hlx;
         unfold wait_ok in IHx |- *.
    all: destruct (pc x) eqn:Hpx; simpl in *; try done.
    all: try (intuition congruence).
    all: try (right; exists t; eexists _, _;
              split; [apply list_lookup_insert_eq; by eapply lookup_lt_Some|reflexivity]).
    all: destruct IHx as [?|Hp]; [by left|right].
    all: eapply (notify_pending_other s _ t); [reflexivity| |exact Hp].
    all: intros th0 o0 Hth0; rewrite Hth in Hth0; injection Hth0 as <-;
         rewrite Hpc; discriminate.
Qed.

(** X6.  No wake-up is lost.  In every reachable state, a thread that waits
    on [stopCond] in [StopAllDebuggers] either still has a connection to wait
    for ([debuggersConnected] is not zero) or the [notify_all] of the
    [UpdateConnected] call that changed the count is yet to come; and a thread
    about to enter the wait has seen the count non-zero and nobody can have
    changed it since. *)
Theorem no_lost_wakeup s t th :
  reachable s → threads s !! t = Some th →
  (pc th = S_Blocked →
     debuggersConnected s ≠ 0 ∨
     ∃ t' th' o, threads s !! t' = Some th' ∧ pc th' = H_Update o UNotify ∧
                 stopLock s = Some t') ∧
  (pc th = S_Wait → debuggersConnected s ≠ 0 ∧ stopLock s = Some t).
Proof.
  intros Hr Hth. pose proof (waiters_ok _ Hr _ _ Hth) as Hw. unfold wait_ok in Hw.
  pose proof (inv_lock _ (reachable_Inv _ Hr)) as Hlock.
  split; intros Hpc; rewrite Hpc in Hw.
  - destruct Hw as [?|(t' & th' & o & Hth' & Hpc')]; [by left|right].
    exists t', th', o. split_and!; try done.
    apply (Hlock _ _ Hth'). by rewrite Hpc'.
  - split; [done|]. apply (Hlock _ _ Hth). by rewrite Hpc.
Qed.

Lemma inflight_zero ths :
  inflight ths = 0%nat → ∀ t th, ths !! t = Some th → counted (pc th) = false.
Proof.
  intros Hz t th Hth. destruct (counted (pc th)) eqn:Hc; [|done].
  pose proof (inflight_pos _ _ _ Hth Hc). lia.
Qed.

(** X7.  [StopAllDebuggers] does not come back early.  In every reachable
    state of a pool of at most [INT_MAX] threads, when a thread is past the
    loop of [StopAllDebuggers] (at the reset of line 149 or at the return),
    no connection is between its increment and its decrement: no thread is
    setting up subscribers, in the loop of lines 118-127 or tearing down. *)
Theorem return_means_drained s t th :
  reachable s → Z.of_nat (length (threads s)) ≤ INT_MAX →
  threads s !! t = Some th → pc th = S_Reset ∨ pc th = S_Unlock →
  inflight (threads s) = 0%nat ∧
  ∀ t' th', threads s !! t' = Some th' →
    counted (pc th') = false ∧ in_loop (pc th') = false ∧ pc th' ≠ H_Setup.
Proof.
  intros HI%reachable_Inv Hn Hth Hpc.
  pose proof (inv_local _ HI _ _ Hth) as Hloc. unfold local_ok in Hloc.
  pose proof (connected_exact _ HI Hn) as Hdc.
  assert (debuggersConnected s = 0) as Hz
    by (destruct Hpc as [Hpc|Hpc]; rewrite Hpc in Hloc; [done|by destruct Hloc]).
  assert (inflight (threads s) = 0%nat) as Hin by lia.
  split; [done|]. intros t' th' Hth'.
  pose proof (inflight_zero _ Hin _ _ Hth') as Hc.
  split; [done|]. destruct (pc th') as [| |[] []| | | | | | | | | | | | | |];
    simpl in *; try done.
Qed.

(** X8.  Threads do not reach into each other.  A step of one thread leaves
    the pool as large as it was and every other thread where it was, with
    its name, its connection's locals and its log; the one exception is
    [notify_all], which moves the threads waiting on [stopCond] on to
    retaking the lock. *)
Theorem step_other_threads s t l s' :
  step s t l = Some s' →
  length (threads s') = length (threads s) ∧
  ∀ t' th', t' ≠ t → threads s !! t' = Some th' →
    threads s' !! t' = Some th' ∨
    (pc th' = S_Blocked ∧ threads s' !! t' = Some (at_pc th' S_Relock) ∧
     ∃ th o, threads s !! t = Some th ∧ pc th = H_Update o UNotify).
Proof.
  intros H. split; [by eapply step_length|].
  intros t' th' Hne Hth'.
  unfold step in H. destruct (threads s !! t) as [th|] eqn:Hth; [|done].
  unfold step_at in H.
  destruct (pc th) as [| |o []| | | | | | | | | | | | | |] eqn:Hpc, l as [| |[]| | | |];
    try discriminate H;
    repeat match type of H with
    | context [stopLock s] => destruct (stopLock s); try discriminate H
    | context [stopRequested s] => destruct (stopRequested s)
    | context [decide ?P] => destruct (decide P)
    | context [ws_Process ?a ?b ?c ?d] => destruct (ws_Process a b c d) as [[[? ?] ?] ?]
    | context [shutdown_subscribers ?a ?b ?c ?d] =>
        destruct (shutdown_subscribers a b c d) as [?|[? ?]]
    end;
    simpl in H; injection H as <-; simpl;
    rewrite list_lookup_insert_ne by done;
    try (by left).
  rewrite list_lookup_fmap, Hth'. simpl. unfold wake.
  destruct (pc th') eqn:Hp; try (by left).
  right. split_and!; try done. by exists th, o.
Qed.

Lemma ws_Process_no_close c alive fs h more c' h' evs :
  ws_Process c alive fs h = (more, c', h', evs) → ∀ code, EvClose code ∉ evs.
Proof.
  unfold ws_Process. intros H code Hin.
  assert (filter is_close evs = []) as Hnil.
  { destruct (ws_open c), alive; try (by injection H as <- <- <- <-).
    pose proof (deliver_no_close (eventHandlers c) fs h) as Hc.
    destruct (deliver (eventHandlers c) fs h) as [h1 evs1].
    by injection H as <- <- <- <-. }
  assert (EvClose code ∈ filter is_close evs) as Hf
    by (apply list_elem_of_filter; by split).
  rewrite Hnil in Hf. by apply not_elem_of_nil in Hf.
Qed.

(** As [step_cases], keeping what [Process] returned. *)
Ltac step_cases_ws H s t l Hlocal :=
  unfold step in H;
  let th := fresh "th" in
  let Hth := fresh "Hth" in
  let Hpc := fresh "Hpc" in
  let Hloc := fresh "Hloc" in
  destruct (threads s !! t) as [th|] eqn:Hth; [|discriminate H];
  unfold step_at in H;
  pose proof (Hlocal _ _ Hth) as Hloc; unfold local_ok in Hloc;
  destruct (pc th) as [| |[] [| |?| |]| | | | | | | | | | | | | |] eqn:Hpc;
  destruct l as [| |[]| | | |]; try discriminate H;
  repeat match type of H with
  | context [stopLock s] => destruct (stopLock s) eqn:?; try discriminate H
  | context [stopRequested s] => destruct (stopRequested s) eqn:?
  | context [decide ?P] => destruct (decide P)
  | context [ws_Process ?a ?b ?c ?d] =>
      let Hws := fresh "Hws" in
      destruct (ws_Process a b c d) as [[[[] ?] ?] ?] eqn:Hws
  | context [shutdown_subscribers ?a ?b ?c ?d] =>
      rewrite Hloc, shutdown_subscribers_ready in H
  end;
  simpl in H; injection H as <-.

(** X9.  A thread's log only grows, and the server closes a connection only
    for a stop: if a step adds a close to the log, it is the close of line
    125 with [GOING_AWAY], made because [stopRequested] was read as true, and
    at that moment some thread is inside [StopAllDebuggers]. *)
Theorem close_only_when_stopping s t l s' :
  reachable s → step s t l = Some s' →
  ∀ th th', threads s !! t = Some th → threads s' !! t = Some th' →
  ∃ evs, trace th' = trace th ++ evs ∧
    ∀ code, EvClose code ∈ evs →
      code = GOING_AWAY ∧ pc th = H_StopCheck ∧ stopRequested s = true ∧
      ∃ d thd, threads s !! d = Some thd ∧ draining (pc thd) = true.
Proof.
  intros HI%reachable_Inv H.
  pose proof (inv_local _ HI) as Hlocal. pose proof (inv_drain _ HI) as Hdrain.
  step_cases_ws H s t l Hlocal.
  all: intros th0 th' [= <-] Hth'.
  all: assert (t < length (threads s))%nat as Hlt by (by eapply lookup_lt_Some).
  all: simpl in Hth'; rewrite list_lookup_insert_eq in Hth'
         by (by rewrite ?length_fmap); injection Hth' as <-; simpl.
  all: try (exists []; rewrite app_nil_r; split; [done|];
            intros code Hin; by apply not_elem_of_nil in Hin).
  all: eexists; split; [reflexivity|]; intros code Hin.
  all: try (by destruct (ws_Process_no_close _ _ _ _ _ _ _ _ Hws code)).
  all: try (by apply list_elem_of_fmap in Hin as (p & Heq & _)).
  all: try (simpl in Hin;
            repeat (apply elem_of_cons in Hin as [Hin|Hin]; [discriminate Hin|]);
            by apply not_elem_of_nil in Hin).
  apply list_elem_of_singleton in Hin. injection Hin as <-.
  split_and!; try done. by apply Hdrain.
Qed.

(** ** Init and teardown for any table of subscribers *)

Lemma shutdown_subscribers_faults subs : ∀ i sd h,
  (∀ k, (k < length subs)%nat → is_Some (sd !! (i + k)%nat)) →
  match shutdown_subscribers subs i sd h with
  | inl (NoSubscriberData _) => False
  | inl (AssertionFailed j) =>
      ∃ k info p, j = (i + k)%nat ∧ subs !! k = Some info ∧
        shutdown info = None ∧ sd !! j = Some p ∧ p ≠ nullptr
  | inr (_, evs) =>
      omap visited evs = seq i (length subs) ∧
      ∀ k info p, subs !! k = Some info → shutdown info = None →
        sd !! (i + k)%nat = Some p → p = nullptr
  end.
Proof.
  induction subs as [|info subs IH]; intros i sd h Hsd.
  - simpl. split; [done|]. by intros k info p Hk.
  - destruct (Hsd 0%nat) as [p Hp]; [simpl; lia|]. rewrite Nat.add_0_r in Hp.
    simpl. rewrite Hp.
    assert (∀ k, (k < length subs)%nat → is_Some (sd !! (S i + k)%nat)) as Hrest.
    { intros k Hk. rewrite Nat.add_succ_comm. apply Hsd. simpl. lia. }
    destruct (shutdown info) as [f|] eqn:Hshut.
    + specialize (IH (S i) sd (f p h) Hrest).
      destruct (shutdown_subscribers subs (S i) sd (f p h)) as [[j|j]|[h' evs]].
      * destruct IH as (k & info' & q & -> & Hk & Hn & Hq & Hne).
        exists (S k), info', q. rewrite <- Nat.add_succ_comm. done.
      * done.
      * destruct IH as [Hvis Hall]. split; [cbn [seq length]; by rewrite <- Hvis|].
        intros [|k] info' q; simpl.
        -- intros [= <-]. congruence.
        -- rewrite <- Nat.add_succ_comm. apply Hall.
    + destruct (decide (p = nullptr)) as [->|Hne].
      * specialize (IH (S i) sd h Hrest).
        destruct (shutdown_subscribers subs (S i) sd h) as [[j|j]|[h' evs]].
        -- destruct IH as (k & info' & q & -> & Hk & Hn & Hq & Hne).
           exists (S k), info', q. rewrite <- Nat.add_succ_comm. done.
        -- done.
        -- destruct IH as [Hvis Hall]. split; [cbn [seq length]; by rewrite <- Hvis|].
           intros [|k] info' q; simpl.
           ++ intros [= <-] _. rewrite Nat.add_0_r, Hp. by intros [= <-].
           ++ rewrite <- Nat.add_succ_comm. apply Hall.
      * exists 0%nat, info, p. rewrite Nat.add_0_r. done.
Qed.

(** X10.  For any table of subscribers and any init functions: the init loop
    leaves one context per subscriber, so the teardown loop never reads
    [subscriberData] out of range.  The teardown either visits every
    subscriber in table order, every one without a teardown having a null
    context, or stops at the assertion of line 133 for a subscriber that has
    no teardown and whose init returned a non-null context. *)
Theorem teardown_after_init (subs : list SubscriberInfo)
    (map : gmap string DebuggerEventHandler) h :
  length (init_subscribers subs 0 map []).1.2 = length subs ∧
  match shutdown_subscribers subs 0 (init_subscribers subs 0 map []).1.2 h with
  | inl (NoSubscriberData _) => False
  | inl (AssertionFailed j) =>
      ∃ info p, subs !! j = Some info ∧ shutdown info = None ∧
        (init_subscribers subs 0 map []).1.2 !! j = Some p ∧ p ≠ nullptr
  | inr (_, evs) =>
      omap visited evs = seq 0 (length subs) ∧
      ∀ k info p, subs !! k = Some info → shutdown info = None →
        (init_subscribers subs 0 map []).1.2 !! k = Some p → p = nullptr
  end.
Proof.
  destruct (init_subscribers_order subs 0 map []) as (map' & ps & -> & Hlen & _).
  simpl. split; [done|].
  pose proof (shutdown_subscribers_faults subs 0 ps h) as Hf.
  destruct (shutdown_subscribers subs 0 ps h) as [[j|j]|[h' evs]].
  - destruct Hf as (k & info & p & -> & Hk & Hn & Hp & Hne).
    + intros k Hk. apply lookup_lt_is_Some. simpl. lia.
    + by exists info, p.
  - apply Hf. intros k Hk. apply lookup_lt_is_Some. simpl. lia.
  - apply Hf. intros k Hk. apply lookup_lt_is_Some. simpl. lia.
Qed.

(** ** The locals of a running connection *)

Lemma ws_Process_conn c alive fs h more c' h' evs :
  ws_Process c alive fs h = (more, c', h', evs) →
  eventHandlers c' = eventHandlers c ∧ subscriberData c' = subscriberData c ∧
  ws_open c' = more.
Proof.
  unfold ws_Process. destruct (ws_open c) eqn:Hopen, alive;
    try (intros [= <- <- <- <-]; done).
  destruct (deliver _ _ _). by intros [= <- <- <- <-].
Qed.

Lemma conn_ok_wake th : conn_ok th → conn_ok (wake th).
Proof. unfold wake, conn_ok. by destruct (pc th) eqn:E; simpl; rewrite ?E. Qed.

Lemma conns_ok s :
  reachable s → ∀ t th, threads s !! t = Some th → conn_ok th.
Proof.
  revert s. apply (reachable_ind (λ s, ∀ t th, threads s !! t = Some th → conn_ok th)).
  - intros n h0 t th [-> _]%lookup_replicate. done.
  - intros s t l s' [_ _ Hlocal _] IH H. step_cases_ws H s t l Hlocal.
    all: pose proof (IH _ _ Hth) as IHself; unfold conn_ok in IHself;
         rewrite Hpc in IHself.
    all: try (apply ws_Process_conn in Hws as (Hws1 & Hws2 & Hws3)).
    all: simpl; intros t' x Hx; apply lookup_set_thread in Hx as [[-> ->]|[Hne Hx]].
    all: try (apply lookup_wake in Hx as (y & Hx & ->); apply conn_ok_wake).
    all: try (by eapply IH).
    all: unfold conn_ok; simpl; simpl in IHself; try done.
    all: try (destruct IHself as (? & ? & ? & ?); split_and!; first [done|congruence]).
    all: try (destruct IHself as (? & ?); split_and!; first [done|congruence]).
Qed.

(** X11.  The locals of a connection in its loop and its teardown.  The
    thread has the name of line 78; [eventHandlers] and [subscriberData] are
    what the init loop of lines 87-89 made of the empty table and the empty
    vector, the same at every turn (nothing registers a handler later); the
    broadcasters and the check of line 124 run with the socket open, and the
    teardown runs with the socket closed. *)
Theorem connection_locals s t th :
  reachable s → threads s !! t = Some th → in_loop (pc th) = true →
  tname th = "Debugger" ∧
  eventHandlers (loc th) = (init_subscribers subscribers 0 ∅ []).1.1 ∧
  subscriberData (loc th) = (init_subscribers subscribers 0 ∅ []).1.2 ∧
  length (subscriberData (loc th)) = length subscribers ∧
  (pc th = H_Broadcast ∨ pc th = H_StopCheck → ws_open (loc th) = true) ∧
  (pc th = H_Teardown → ws_open (loc th) = false).
Proof.
  intros Hr Hth Hin. pose proof (conns_ok _ Hr _ _ Hth) as Hc.
  unfold conn_ok in Hc.
  destruct (pc th) eqn:Hpc; try discriminate Hin;
    destruct Hc as (Hn & Hh & Hd & Hw); split_and!; try done;
    try (by rewrite Hd); try (by intros [|]); try (by intros _).
Qed.

(** ** Whole runs *)

(** Finding a thread in a state built by steps of two threads. *)
Ltac find_thread :=
  simpl;
  repeat first
    [ rewrite list_lookup_insert_eq
        by (repeat first [rewrite length_insert | rewrite length_fmap];
            by eapply lookup_lt_Some)
    | rewrite list_lookup_insert_ne by done
    | rewrite list_lookup_fmap ];
  first [ reflexivity | eassumption | (simpl; reflexivity) ].

Ltac run_thread := erewrite step_lookup by find_thread; unfold step_at; simpl.

(** X12.  A drain of one connection goes through.  From any reachable state
    with one connection counted, its thread [c] at the head of its loop with
    the socket open, the lock free and a thread [d] outside both entry
    points: [d] can call [StopAllDebuggers], and there is a run in which [c]
    reads the flag at its next turn, closes with [GOING_AWAY], tears down and
    takes itself off the count, and [d] is woken and returns.  Afterwards
    the count is zero, the flag false, the lock free and the host untouched;
    [d] is as it was, [c] is outside again, and every other thread is as it
    was or, if it waited on [stopCond], woken. *)
Theorem drain_one_run s c d thc thd :
  reachable s → c ≠ d →
  threads s !! c = Some thc → pc thc = H_Process → ws_open (loc thc) = true →
  threads s !! d = Some thd → pc thd = Idle →
  stopLock s = None → debuggersConnected s = 1 →
  ∃ s' thc', exec s (drain_one c d) = Some s' ∧
    debuggersConnected s' = 0 ∧ stopRequested s' = false ∧ stopLock s' = None ∧
    host s' = host s ∧
    threads s' !! d = Some thd ∧
    threads s' !! c = Some thc' ∧ pc thc' = Idle ∧
    trace thc' = trace thc ++ [EvClose GOING_AWAY; EvAssert 0; EvAssert 1; EvDelete] ∧
    ∀ t, t ≠ c → t ≠ d → threads s' !! t = wake <$> threads s !! t.
Proof.
  intros Hr Hne Hc Hpc Hopen Hd Hpd Hlk Hdc.
  assert (d ≠ c) as Hne' by done.
  pose proof (inv_local _ (reachable_Inv _ Hr) _ _ Hc) as Hsd.
  unfold local_ok in Hsd. rewrite Hpc in Hsd.
  unfold drain_one, exec.
  rewrite (step_lookup _ _ _ _ Hd). unfold step_at. rewrite Hpd.
  run_thread. rewrite Hlk.
  run_thread. rewrite decide_True by (by rewrite Hdc).
  run_thread. run_thread.
  run_thread. rewrite Hpc. unfold ws_Process. rewrite Hopen. simpl.
  run_thread. run_thread.
  run_thread. run_thread. rewrite Hsd. simpl.
  run_thread. run_thread. run_thread. rewrite Hdc.
  run_thread. run_thread.
  run_thread. run_thread. run_thread. run_thread.
  eexists _, _. split; [reflexivity|]. simpl.
  assert (c < length (threads s))%nat as Hlc by (by eapply lookup_lt_Some).
  assert (d < length (threads s))%nat as Hld by (by eapply lookup_lt_Some).
  do 4 (split; [reflexivity|]).
  split.
  { rewrite list_lookup_insert_eq
      by (by repeat first [rewrite length_insert | rewrite length_fmap]).
    f_equal. destruct thd. simpl in Hpd. by subst. }
  split.
  { rewrite !list_lookup_insert_ne by done.
    rewrite list_lookup_insert_eq
      by (by repeat first [rewrite length_insert | rewrite length_fmap]).
    reflexivity. }
  split; [reflexivity|].
  split; [simpl; by rewrite !app_nil_r, <- !app_assoc|].
  intros t Htc Htd. rewrite !list_lookup_insert_ne by done.
  rewrite list_lookup_fmap. by rewrite !list_lookup_insert_ne by done.
Qed.



Lemma wrap_int_idemp z : wrap_int (wrap_int z) = wrap_int z.
Proof.
  pose proof (wrap_int_add z 0) as H. by rewrite !Z.add_0_r in H.
Qed.

Lemma wake_wake th : wake (wake th) = wake th.
Proof. unfold wake. by destruct (pc th) eqn:E; simpl; rewrite ?E. Qed.

(** X13.  A connection that comes and goes leaves the coordinator as it
    found it.  From any reachable state with the lock free, a thread outside
    both entry points can run a whole [HandleDebuggerRequest] call whose peer
    goes away at once; afterwards [debuggersConnected] has its old value
    (also at the limits of [int]), the flag, the host and the lock are as
    before, and the thread is outside again, having logged the two inits,
    the two checks of the teardown and [delete ws]. *)
Theorem short_session_run s t th :
  reachable s → threads s !! t = Some th → pc th = Idle → stopLock s = None →
  ∃ s' th', exec s (short_session t) = Some s' ∧
    debuggersConnected s' = debuggersConnected s ∧
    stopRequested s' = stopRequested s ∧ stopLock s' = None ∧ host s' = host s ∧
    threads s' !! t = Some th' ∧ pc th' = Idle ∧ tname th' = "Debugger" ∧
    trace th' = trace th ++ [EvInit 0; EvInit 1; EvAssert 0; EvAssert 1; EvDelete] ∧
    ∀ t', t' ≠ t → threads s' !! t' = wake <$> threads s !! t'.
Proof.
  intros Hr Hth Hpc Hlk.
  assert (t < length (threads s))%nat as Hlt by (by eapply lookup_lt_Some).
  unfold short_session, exec.
  rewrite (step_lookup _ _ _ _ Hth). unfold step_at. rewrite Hpc.
  run_thread. run_thread. rewrite Hlk.
  run_thread. run_thread. run_thread. run_thread. run_thread.
  run_thread. run_thread. run_thread. run_thread. run_thread.
  run_thread. run_thread.
  eexists _, _. split; [reflexivity|]. simpl.
  split.
  { rewrite wrap_int_add. replace (debuggersConnected s + 1 + -1)
      with (debuggersConnected s) by lia.
    rewrite (inv_count _ (reachable_Inv _ Hr)). apply wrap_int_idemp. }
  do 3 (split; [reflexivity|]).
  split.
  { apply list_lookup_insert_eq.
    by repeat first [rewrite length_insert | rewrite length_fmap]. }
  do 2 (split; [reflexivity|]).
  split; [simpl; by rewrite ?app_nil_r, <- ?app_assoc|].
  intros t' Hne.
  repeat first [rewrite list_lookup_insert_ne by done | rewrite list_lookup_fmap].
  destruct (threads s !! t') as [x|]; [|done]. simpl. by rewrite wake_wake.
Qed.

(** ** No deadlock *)

Lemma holder_can_step s t th :
  threads s !! t = Some th → holds (pc th) = true → can_step s t.
Proof.
  intros Hth Hh. unfold can_step. exists LTau.
  rewrite (step_lookup _ _ _ _ Hth). unfold step_at.
  destruct (pc th) as [| |o [| |tmp| |]| | | | | | | | | | | | | |];
    try discriminate Hh; try (by eexists).
  destruct (decide (debuggersConnected s ≠ 0)); by eexists.
Qed.

Lemma unblocked_can_step s t th :
  reachable s → threads s !! t = Some th →
  pc th ≠ Idle → pc th ≠ S_Blocked →
  can_step s t ∨ ∃ t', stopLock s = Some t' ∧ can_step s t'.
Proof.
  intros Hr Hth Hidle Hblocked. pose proof (reachable_Inv _ Hr) as HI.
  pose proof (inv_local _ HI _ _ Hth) as Hloc. unfold local_ok in Hloc.
  assert (∀ t', stopLock s = Some t' → can_step s t') as Hholder.
  { intros t' Hlk. destruct (lock_owner_exists _ Hr _ Hlk) as [th' Hth'].
    eapply holder_can_step; [done|]. by apply (inv_lock _ HI _ _ Hth'). }
  destruct (holds (pc th)) eqn:Hh; [left; by eapply holder_can_step|].
  unfold can_step.
  destruct (pc th) as [| |o [| |tmp| |]| | | | | | | | | | | | | |] eqn:Hpc;
    try discriminate Hh; try done.
  - left. exists (LUpgrade true). rewrite (step_lookup _ _ _ _ Hth).
    unfold step_at. rewrite Hpc. by eexists.
  - destruct (stopLock s) as [t'|] eqn:Hlk; [right; exists t'; by split; [|apply Hholder]|].
    left. exists LTau. rewrite (step_lookup _ _ _ _ Hth).
    unfold step_at. rewrite Hpc, Hlk. by eexists.
  - left. exists LTau. rewrite (step_lookup _ _ _ _ Hth).
    unfold step_at. rewrite Hpc. by eexists.
  - left. exists (LProcess true []). rewrite (step_lookup _ _ _ _ Hth).
    unfold step_at. rewrite Hpc.
    destruct (ws_Process (loc th) true [] (host s)) as [[[more c] h] evs]. by eexists.
  - left. exists (LBroadcast [] [] []). rewrite (step_lookup _ _ _ _ Hth).
    unfold step_at. rewrite Hpc. by eexists.
  - left. exists LTau. rewrite (step_lookup _ _ _ _ Hth).
    unfold step_at. rewrite Hpc. destruct (stopRequested s); by eexists.
  - left. exists LTau. rewrite (step_lookup _ _ _ _ Hth).
    unfold step_at. rewrite Hpc, Hloc, shutdown_subscribers_ready. by eexists.
  - destruct (stopLock s) as [t'|] eqn:Hlk; [right; exists t'; by split; [|apply Hholder]|].
    left. exists LTau. rewrite (step_lookup _ _ _ _ Hth).
    unfold step_at. rewrite Hpc, Hlk. by eexists.
  - destruct (stopLock s) as [t'|] eqn:Hlk; [right; exists t'; by split; [|apply Hholder]|].
    left. exists LTau. rewrite (step_lookup _ _ _ _ Hth).
    unfold step_at. rewrite Hpc, Hlk. by eexists.
Qed.

Lemma inflight_exists ths :
  (1 ≤ inflight ths)%nat → ∃ t th, ths !! t = Some th ∧ counted (pc th) = true.
Proof.
  induction ths as [|a ths IH]; [unfold inflight; simpl; lia|].
  rewrite inflight_cons. destruct (counted (pc a)) eqn:Hc.
  - intros _. by exists 0%nat, a.
  - simpl. intros (t & th & Hth & Hcth)%IH. by exists (S t), th.
Qed.

(** X14.  The coordinator does not deadlock.  In every reachable state of a
    pool of at most [INT_MAX] threads, if some thread is inside
    [HandleDebuggerRequest] or [StopAllDebuggers], then some thread can take a
    step of the code itself: no new call by the host and no spurious wake-up
    is needed to get on. *)
Theorem no_deadlock s t th :
  reachable s → Z.of_nat (length (threads s)) ≤ INT_MAX →
  threads s !! t = Some th → pc th ≠ Idle →
  ∃ t' l s', internal l = true ∧ step s t' l = Some s'.
Proof.
  intros Hr Hn Hth Hidle. pose proof (reachable_Inv _ Hr) as HI.
  assert (∀ t0 th0, threads s !! t0 = Some th0 → pc th0 ≠ Idle →
            pc th0 ≠ S_Blocked → ∃ t' l s', internal l = true ∧ step s t' l = Some s')
    as Hgo.
  { intros t0 th0 H0 Hi Hb.
    destruct (unblocked_can_step _ _ _ Hr H0 Hi Hb) as [Hc|(t' & _ & Hc)];
      [by exists t0|by exists t']. }
  assert (pc th = S_Blocked ∨ pc th ≠ S_Blocked) as [Hb|Hb]
    by (destruct (pc th); first [by left | by right]);
    [|by eapply Hgo].
  pose proof (waiters_ok _ Hr _ _ Hth) as Hw. unfold wait_ok in Hw.
  rewrite Hb in Hw. destruct Hw as [Hdc|(tn & thn & o & Htn & Hpn)].
  - pose proof (connected_exact _ HI Hn) as Hex.
    destruct (inflight_exists (threads s)) as (tc & thc & Htc & Hc); [lia|].
    eapply (Hgo tc thc Htc); intros Hp; rewrite Hp in Hc; discriminate Hc.
  - eapply (Hgo tn thn Htn); rewrite Hpn; discriminate.
Qed.

(** ** The connection counter *)

Lemma upgraded_count_cons th ths :
  upgraded_count (th :: ths) = (b2n (upgraded (pc th)) + upgraded_count ths)%nat.
Proof.
  unfold upgraded_count. rewrite filter_cons.
  destruct (decide (upgraded (pc th) = true)) as [->|Hn]; [done|].
  by destruct (upgraded (pc th)).
Qed.

Lemma uncounted_count_cons th ths :
  uncounted_count (th :: ths) = (b2n (uncounted (pc th)) + uncounted_count ths)%nat.
Proof.
  unfold uncounted_count. rewrite filter_cons.
  destruct (decide (uncounted (pc th) = true)) as [->|Hn]; [done|].
  by destruct (uncounted (pc th)).
Qed.

(** The calls past their upgrade are those the counter shows and those it
    does not. *)
Lemma upgraded_count_split ths :
  upgraded_count ths = (inflight ths + uncounted_count ths)%nat.
Proof.
  induction ths as [|th ths IH]; [done|].
  rewrite upgraded_count_cons, inflight_cons, uncounted_count_cons, IH.
  unfold uncounted.
  destruct (pc th) as [| |[] []| | | | | | | | | | | | | |]; simpl; lia.
Qed.

(** [UpdateConnected(delta)] run by one thread from its first line with the
    lock free: the counter has [delta] added, every waiter is woken, the lock
    is free again, and the thread is past the call. *)
Lemma UpdateConnected_run s t th o :
  threads s !! t = Some th → pc th = H_Update o ULock → stopLock s = None →
  ∃ s', exec s (replicate 5 (t, LTau)) = Some s' ∧
    debuggersConnected s' = wrap_int (debuggersConnected s + delta o) ∧
    stopRequested s' = stopRequested s ∧ stopLock s' = None ∧ host s' = host s ∧
    threads s' = <[t := at_pc th (if o then H_Setup else Idle)]> (wake <$> threads s).
Proof.
  intros Hth Hpc Hlk.
  assert (t < length (threads s))%nat as Hlt by (by eapply lookup_lt_Some).
  simpl replicate. unfold exec.
  rewrite (step_lookup _ _ _ _ Hth). unfold step_at. rewrite Hpc, Hlk.
  run_step Hlt. run_step Hlt. run_step Hlt. run_step Hlt.
  eexists. split; [reflexivity|]. simpl. split_and!; try done.
  rewrite !list_insert_insert_eq, list_fmap_insert, list_insert_insert_eq.
  reflexivity.
Qed.

(** Where a thread can have come from. *)
Lemma step_into s t l s' th th' :
  step s t l = Some s' → threads s !! t = Some th → threads s' !! t = Some th' →
  (pc th' = H_Setup → pc th = H_Update true UUnlock) ∧
  (upgraded (pc th) = true → pc th' = Idle → pc th = H_Update false UUnlock) ∧
  (upgraded (pc th) = false → upgraded (pc th') = true →
     pc th = H_Upgrade ∧ l = LUpgrade true ∧ pc th' = H_Update true ULock).
Proof.
  intros H Hth Hth'.
  assert (t < length (threads s))%nat as Hlt by (by eapply lookup_lt_Some).
  rewrite (step_lookup _ _ _ _ Hth) in H. unfold step_at in H.
  destruct (pc th) as [| |o []| | | | | | | | | | | | | |] eqn:Hpc, l as [| |[]| | | |];
    try discriminate H;
    repeat match type of H with
    | context [stopLock s] => destruct (stopLock s); try discriminate H
    | context [stopRequested s] => destruct (stopRequested s)
    | context [decide ?P] => destruct (decide P)
    | context [ws_Process ?a ?b ?c ?d] => destruct (ws_Process a b c d) as [[[[] ?] ?] ?]
    | context [shutdown_subscribers ?a ?b ?c ?d] =>
        destruct (shutdown_subscribers a b c d) as [?|[? ?]]
    end;
    simpl in H; injection H as <-; simpl in Hth';
    rewrite list_lookup_insert_eq in Hth' by (by rewrite ?length_fmap);
    injection Hth' as <-; simpl; split_and!; try done;
    destruct o; done.
Qed.

Lemma enter_loop_run s t th :
  threads s !! t = Some th → pc th = H_Upgrade → stopLock s = None →
  ∃ s' th', exec s (enter_loop t) = Some s' ∧
    debuggersConnected s' = wrap_int (debuggersConnected s + 1) ∧
    stopLock s' = None ∧
    threads s' !! t = Some th' ∧ pc th' = H_Process ∧ ws_open (loc th') = true.
Proof.
  intros Hth Hpc Hlk.
  assert (t < length (threads s))%nat as Hlt by (by eapply lookup_lt_Some).
  unfold enter_loop. cbn [exec].
  rewrite (step_lookup _ _ _ _ Hth). unfold step_at at 1. rewrite Hpc.
  set (th1 := {| pc := H_Update true ULock; tname := "Debugger";
                  loc := {| ws_open := true; eventHandlers := ∅;
                            subscriberData := [] |};
                  trace := trace th |}).
  destruct (UpdateConnected_run (set_thread s t th1) t th1 true)
    as (s2 & Hrun & Hdc & _ & Hlk2 & _ & Hths);
    [by apply set_thread_lookup|reflexivity|exact Hlk|].
  rewrite (exec_app _ _ _ _ Hrun). cbn [exec].
  erewrite step_lookup
    by (rewrite Hths; apply list_lookup_insert_eq;
        rewrite length_fmap; simpl; by rewrite length_insert).
  unfold step_at. simpl.
  eexists _, _. split; [reflexivity|]. simpl.
  split; [exact Hdc|]. split; [exact Hlk2|].
  split; [apply list_lookup_insert_eq; rewrite Hths, length_insert, length_fmap;
          simpl; by rewrite length_insert|].
  by split.
Qed.

Lemma leave_loop_run s t th :
  Inv s → threads s !! t = Some th → pc th = H_Teardown → stopLock s = None →
  ∃ s' th', exec s (leave_loop t) = Some s' ∧
    debuggersConnected s' = wrap_int (debuggersConnected s + -1) ∧
    stopLock s' = None ∧ host s' = host s ∧
    threads s' !! t = Some th' ∧ pc th' = Idle.
Proof.
  intros HI Hth Hpc Hlk.
  assert (t < length (threads s))%nat as Hlt by (by eapply lookup_lt_Some).
  pose proof (inv_local _ HI _ _ Hth) as Hloc. unfold local_ok in Hloc.
  rewrite Hpc in Hloc.
  unfold leave_loop. cbn [exec].
  rewrite (step_lookup _ _ _ _ Hth). unfold step_at at 1.
  rewrite Hpc, Hloc, shutdown_subscribers_ready.
  set (th1 := at_pc (emit th ([EvAssert 0; EvAssert 1] ++ [EvDelete]))
                    (H_Update false ULock)).
  destruct (UpdateConnected_run (set_thread (with_host s (host s)) t th1) t th1 false)
    as (s2 & Hrun & Hdc & _ & Hlk2 & Hhost & Hths);
    [by apply set_thread_lookup|reflexivity|exact Hlk|].
  rewrite Hrun. eexists _, _. split; [reflexivity|].
  split; [exact Hdc|]. split; [exact Hlk2|]. split; [exact Hhost|].
  split; [rewrite Hths; apply list_lookup_insert_eq;
          rewrite length_fmap; simpl; by rewrite length_insert|].
  reflexivity.
Qed.

(** C10, as amended.  (1) In every reachable state [debuggersConnected] is
    the number of calls between the store of their increment and the store
    of their decrement (as an [int]; exactly, and never negative, when the
    pool has no more threads than [INT_MAX]).  It is not always the number
    of calls past their upgrade: that number is the counter plus the calls
    inside [UpdateConnected(1)] before the store and inside
    [UpdateConnected(-1)] after it, so the counter never exceeds it.  A step
    changes the counter only from inside [UpdateConnected], by +1 for the
    call of line 79 and by -1 for the call of line 138, while its thread
    holds [stopLock], and the next thing that thread does is [notify_all].
    A thread about to tear down, run alone with the lock free, gets to its
    return with the counter one down.  (2) In any state, a thread whose
    upgrade succeeds, run alone with the lock free, gets to the head of its
    loop with the counter one up, its socket open.  (3) A call gets past its
    upgrade only into [UpdateConnected(1)], into its setup and loop only out
    of [UpdateConnected(1)], and back to its caller only out of
    [UpdateConnected(-1)].  (4) [UpdateConnected] run from its first line
    with the lock free adds its argument to the counter, wakes every waiter
    and frees the lock. *)
Theorem connected_counts_connections :
  (∀ s, reachable s →
     debuggersConnected s = wrap_int (Z.of_nat (inflight (threads s))) ∧
     (Z.of_nat (length (threads s)) ≤ INT_MAX →
        debuggersConnected s = Z.of_nat (inflight (threads s)) ∧
        0 ≤ debuggersConnected s ∧
        debuggersConnected s ≤ Z.of_nat (upgraded_count (threads s))) ∧
     upgraded_count (threads s) =
       (inflight (threads s) + uncounted_count (threads s))%nat ∧
     (∀ t l s', step s t l = Some s' →
        debuggersConnected s' ≠ debuggersConnected s →
        ∃ th o, threads s !! t = Some th ∧
          pc th = H_Update o (UStore (debuggersConnected s)) ∧
          stopLock s = Some t ∧ stopLock s' = Some t ∧
          debuggersConnected s' = wrap_int (debuggersConnected s + delta o) ∧
          step s' t LTau =
            Some (set_thread (notify_all s') t (at_pc th (H_Update o UUnlock)))) ∧
     (∀ t th, threads s !! t = Some th → pc th = H_Teardown → stopLock s = None →
        ∃ s' th', exec s (leave_loop t) = Some s' ∧
          debuggersConnected s' = wrap_int (debuggersConnected s + -1) ∧
          stopLock s' = None ∧ host s' = host s ∧
          threads s' !! t = Some th' ∧ pc th' = Idle)) ∧
  (∀ s t th, threads s !! t = Some th → pc th = H_Upgrade → stopLock s = None →
     ∃ s' th', exec s (enter_loop t) = Some s' ∧
       debuggersConnected s' = wrap_int (debuggersConnected s + 1) ∧
       stopLock s' = None ∧
       threads s' !! t = Some th' ∧ pc th' = H_Process ∧ ws_open (loc th') = true) ∧
  (∀ s t l s' th th', step s t l = Some s' →
     threads s !! t = Some th → threads s' !! t = Some th' →
     (pc th' = H_Setup → pc th = H_Update true UUnlock) ∧
     (upgraded (pc th) = true → pc th' = Idle → pc th = H_Update false UUnlock) ∧
     (upgraded (pc th) = false → upgraded (pc th') = true →
        pc th = H_Upgrade ∧ l = LUpgrade true ∧ pc th' = H_Update true ULock)) ∧
  (∀ s t th o, threads s !! t = Some th → pc th = H_Update o ULock →
     stopLock s = None →
     ∃ s', exec s (replicate 5 (t, LTau)) = Some s' ∧
       debuggersConnected s' = wrap_int (debuggersConnected s + delta o) ∧
       stopRequested s' = stopRequested s ∧ stopLock s' = None ∧
       host s' = host s ∧
       threads s' =
         <[t := at_pc th (if o then H_Setup else Idle)]> (wake <$> threads s)).
Proof.
  split_and!.
  - intros s HI%reachable_Inv. split_and!.
    + apply (inv_count _ HI).
    + intros Hn. rewrite (connected_exact _ HI Hn).
      pose proof (upgraded_count_split (threads s)). split_and!; [done|lia|lia].
    + apply upgraded_count_split.
    + intros t l s' Hstep Hne.
      destruct (step_connected_change _ _ _ _ HI Hstep Hne)
        as (th & o & Hth & -> & Hpc & Hlk & ->).
      exists th, o. split_and!; try done.
      rewrite (step_lookup _ t _ (at_pc th (H_Update o UNotify)))
        by (simpl; apply list_lookup_insert_eq; by eapply lookup_lt_Some).
      reflexivity.
    + intros t th. by apply leave_loop_run.
  - intros s t th. apply enter_loop_run.
  - intros s t l s' th th'. apply step_into.
  - intros s t th o. apply UpdateConnected_run.
Qed.

End Debugger.

(** ** A sample host

    The host state is a counter of handled requests; the reader knows two
    request texts; the core subscriber registers one event. *)

Definition dq : string := String "034"%char EmptyString.

(** [{"event":"nope","ticket":"7"}] *)
Definition text_unknown : string :=
  "{" +:+ dq +:+ "event" +:+ dq +:+ ":" +:+ dq +:+ "nope" +:+ dq +:+ ","
      +:+ dq +:+ "ticket" +:+ dq +:+ ":" +:+ dq +:+ "7" +:+ dq +:+ "}".

(** [{"event":"cpu.status"}] *)
Definition text_status : string :=
  "{" +:+ dq +:+ "event" +:+ dq +:+ ":" +:+ dq +:+ "cpu.status" +:+ dq +:+ "}".

(** [{"ticket":"7"], cut short *)
Definition text_truncated : string :=
  "{" +:+ dq +:+ "ticket" +:+ dq +:+ ":" +:+ dq +:+ "7" +:+ dq.

Definition sample_reader (t : string) : option JsonValue :=
  if decide (t = text_unknown)
  then Some (JSON_OBJECT [("event", JSON_STRING "nope"); ("ticket", JSON_STRING "7")])
  else if decide (t = text_status)
  then Some (JSON_OBJECT [("event", JSON_STRING "cpu.status")])
  else None.

Definition status_handler : @DebuggerEventHandler Z :=
  λ req h, ({| name := name req; data := data req; responseSent_ := true |},
            h + 1, [PEvent "cpu.status" []]).

Definition sample_cpu_events : list (string * @DebuggerEventHandler Z) :=
  [("cpu.status", status_handler)].

Definition sample_exec := exec (Host := Z) sample_reader sample_cpu_events [].
Definition sample_reachable := reachable (Host := Z) sample_reader sample_cpu_events [].

(** Thread 0 opens a connection and gets to the head of its loop. *)
Definition open_sched : list (nat * Label) :=
  [(0, LCallHandle); (0, LUpgrade true);
   (0, LTau); (0, LTau); (0, LTau); (0, LTau); (0, LTau); (0, LTau)]%nat.

(** Thread 1 calls [StopAllDebuggers] and ends up waiting. *)
Definition wait_sched : list (nat * Label) :=
  [(1, LCallStop); (1, LTau); (1, LTau); (1, LTau); (1, LTau)]%nat.

(** Thread 0 runs one turn of the loop up to the check of line 124. *)
Definition turn_sched : list (nat * Label) :=
  [(0, LProcess true []); (0, LBroadcast [] [] [])]%nat.

(** Thread 0 finds its socket closed, tears down and takes itself off the
    count (up to and including the store). *)
Definition close_sched : list (nat * Label) :=
  [(0, LProcess true []); (0, LTau); (0, LTau); (0, LTau); (0, LTau)]%nat.

(** Thread 0 notifies and unlocks; thread 1 retakes the lock, tests and
    resets. *)
Definition reset_sched : list (nat * Label) :=
  [(0, LTau); (0, LTau); (1, LTau); (1, LTau); (1, LTau)]%nat.

Definition state_after (sched : list (nat * Label)) : State :=
  default (initial 2 0) (sample_exec (initial 2 0) sched).

Definition thread_of (s : @State Z) (t : nat) : Thread :=
  default idle_thread (threads s !! t).

(** A connection of the sample host, set up and open. *)
Definition sample_conn : @Conn Z :=
  {| ws_open := true;
     eventHandlers := register_all sample_cpu_events ∅;
     subscriberData := subscriberData_ready |}.

(** The connection is in its loop, the drain has been asked for, and the
    loop is about to read the flag. *)
Definition check_state : State := state_after (open_sched ++ wait_sched ++ turn_sched).

(** The connection has taken itself off the count; the waiting thread has
    not run yet. *)
Definition race_sched : list (nat * Label) :=
  open_sched ++ wait_sched ++ turn_sched ++ (0%nat, LTau) :: close_sched.
Definition race_state : State := state_after race_sched.

(** The peer has gone and the connection is about to tear down. *)
Definition teardown_state : State :=
  state_after (open_sched ++ [(0%nat, LProcess false [])]).

(** The waiting thread has reset the flag. *)
Definition reset_state : State := state_after (race_sched ++ reset_sched).

Lemma state_after_reachable sched :
  is_Some (sample_exec (initial 2 0) sched) → sample_reachable (state_after sched).
Proof.
  intros [s Hs]. exists 2%nat, 0, sched. unfold state_after.
  fold sample_exec. rewrite Hs. reflexivity.
Defined.

(** C1, the claim as it stands fails: after the last connection has written
    the count back as zero, and before the thread waiting in
    [StopAllDebuggers] has run again, the count is zero and the flag is still
    true. *)
Lemma stop_flag_true_at_zero :
  ∃ s, sample_exec (initial 2 0) race_sched = Some s ∧
    debuggersConnected s = 0 ∧ stopRequested s = true ∧
    ¬ ((stopRequested s = true → 1 ≤ debuggersConnected s) ∧
       (debuggersConnected s = 0 → stopRequested s = false)).
Proof.
  exists race_state. split_and!; try (vm_compute; reflexivity).
  intros [H1 _]. specialize (H1 eq_refl). vm_compute in H1. by apply H1.
Qed.

Lemma stop_flag_only_while_draining_witness :
  sample_reachable race_state ∧
  (stopRequested race_state = true →
     ∃ t th, threads race_state !! t = Some th ∧ draining (pc th) = true).
Proof.
  assert (sample_reachable race_state) as Hr
    by (apply state_after_reachable; vm_compute; eexists; reflexivity).
  split; [exact Hr|].
  exact (proj1 (stop_flag_only_while_draining sample_reader sample_cpu_events [] race_state Hr)).
Defined.

Lemma stop_flag_kept_until_drained_witness :
  ∃ pre d post sm,
    close_sched ++ reset_sched = pre ++ (d, LTau) :: post ∧
    exec sample_reader sample_cpu_events [] check_state ((0%nat, LTau) :: pre) = Some sm ∧
    (∀ k sk, exec sample_reader sample_cpu_events [] check_state
               (take k ((0%nat, LTau) :: pre)) = Some sk →
             stopRequested sk = true) ∧
    confirms_zero sm d.
Proof.
  apply (stop_flag_kept_until_drained sample_reader sample_cpu_events []
           check_state 0%nat (thread_of check_state 0) (close_sched ++ reset_sched)
           reset_state).
  - apply state_after_reachable. vm_compute. eexists. reflexivity.
  - vm_compute. discriminate.
  - vm_compute. reflexivity.
  - vm_compute. reflexivity.
  - vm_compute. reflexivity.
  - vm_compute. reflexivity.
  - vm_compute. reflexivity.
Defined.

Lemma stop_without_connections_witness :
  sample_reachable (initial 2 0) ∧
  exec sample_reader sample_cpu_events [] (initial 2 0) (stop_call 0)
    = Some (with_stop (initial 2 0) false).
Proof.
  assert (sample_reachable (initial 2 0)) as Hr by (by exists 2%nat, 0, []).
  split; [exact Hr|].
  apply (proj1 (stop_without_connections sample_reader sample_cpu_events []
                  (initial 2 0) Hr) 0%nat idle_thread); reflexivity.
Defined.

Lemma unknown_event_reply_witness :
  TextHandler sample_reader (eventHandlers sample_conn) text_unknown 5 =
    (5, [EvFind "nope";
         EvSend (PError {| message := "Bad message: unknown event"; level := LERROR;
                           ticket := Some (JSON_STRING "7") |})]).
Proof.
  refine (proj1 (unknown_event_reply sample_reader sample_cpu_events [] sample_conn
                   text_unknown 5
                   [("event", JSON_STRING "nope"); ("ticket", JSON_STRING "7")]
                   "nope" _ _ _ _)); vm_compute; reflexivity.
Defined.

Lemma invalid_json_reply_witness :
  ws_Process sample_reader sample_conn true [Text text_truncated; Text text_status] 5 =
    (true, sample_conn, 6,
     [EvSend (PError invalid_json_error);
      EvFind "cpu.status"; EvCall "cpu.status"; EvSend (PEvent "cpu.status" [])]).
Proof.
  destruct (invalid_json_reply sample_reader sample_cpu_events [] sample_conn
              text_truncated 5) as (_ & _ & _ & _ & Hrest & _);
    [reflexivity | vm_compute; reflexivity |].
  rewrite Hrest. vm_compute. reflexivity.
Defined.

Lemma invalid_json_error_has_no_ticket_witness :
  (TextHandler sample_reader (eventHandlers sample_conn) text_truncated 5).2 =
    [EvSend (PError {| message := "Bad message: invalid JSON"; level := LERROR;
                       ticket := None |})].
Proof.
  refine (proj1 (invalid_json_error_has_no_ticket sample_reader
                   (eventHandlers sample_conn) text_truncated 5 _)).
  vm_compute. reflexivity.
Defined.

Lemma teardown_in_init_order_witness :
  ∃ ievs tevs h',
    omap visited tevs = omap inited ievs ∧
    step sample_reader sample_cpu_events [] teardown_state 0 LTau =
      Some (set_thread (with_host teardown_state h') 0
              (at_pc (emit (thread_of teardown_state 0) (tevs ++ [EvDelete]))
                     (H_Update false ULock))).
Proof.
  assert (sample_reachable teardown_state) as Hr
    by (apply state_after_reachable; vm_compute; eexists; reflexivity).
  destruct (proj2 (teardown_in_init_order sample_reader sample_cpu_events []
                     teardown_state Hr)
              0%nat (thread_of teardown_state 0) eq_refl eq_refl)
    as (map & ievs & h' & tevs & _ & _ & Hvis & _ & Hstep).
  exists ievs, tevs, h'. split; [exact Hvis|exact Hstep].
Defined.

Lemma refused_upgrade_changes_nothing_witness :
  exec sample_reader sample_cpu_events [] (initial 2 0)
    [(0%nat, LCallHandle); (0%nat, LUpgrade false)] = Some (initial 2 0).
Proof.
  refine (proj2 (refused_upgrade_changes_nothing sample_reader sample_cpu_events []
                   (initial 2 0) 0%nat idle_thread _) _); reflexivity.
Defined.

(** The call of thread 0 is past its upgrade and at the first line of
    [UpdateConnected(1)]. *)
Definition upgraded_state : State :=
  state_after [(0%nat, LCallHandle); (0%nat, LUpgrade true)].

(** Thread 0 has been called and is about to upgrade. *)
Definition called_state : State := state_after [(0%nat, LCallHandle)].

(** C10, the claim as it stands fails: right after the upgrade one call is
    past its upgrade and the counter is still zero; a [StopAllDebuggers]
    call made then returns at once and leaves that call running. *)
Lemma connected_lags_upgrade :
  ∃ s s', sample_exec (initial 2 0) [(0%nat, LCallHandle); (0%nat, LUpgrade true)]
            = Some s ∧
    upgraded_count (threads s) = 1%nat ∧ debuggersConnected s = 0 ∧
    debuggersConnected s ≠ Z.of_nat (upgraded_count (threads s)) ∧
    sample_exec s (stop_call 1) = Some s' ∧
    upgraded_count (threads s') = 1%nat.
Proof.
  exists upgraded_state, upgraded_state.
  split_and!; try (vm_compute; reflexivity). vm_compute. discriminate.
Qed.

Lemma connected_counts_connections_witness :
  (debuggersConnected check_state = 1 ∧ inflight (threads check_state) = 1%nat ∧
   upgraded_count (threads check_state) = 1%nat) ∧
  (debuggersConnected called_state = 0 ∧
   ∃ s' th', exec sample_reader sample_cpu_events [] called_state (enter_loop 0)
               = Some s' ∧
     debuggersConnected s' = 1 ∧
     threads s' !! 0%nat = Some th' ∧ pc th' = H_Process) ∧
  (debuggersConnected teardown_state = 1 ∧
   ∃ s' th', exec sample_reader sample_cpu_events [] teardown_state (leave_loop 0)
               = Some s' ∧
     debuggersConnected s' = 0 ∧
     threads s' !! 0%nat = Some th' ∧ pc th' = Idle).
Proof.
  destruct (connected_counts_connections sample_reader sample_cpu_events [])
    as (Hinv & Henter & _ & _).
  split; [|split; split].
  - destruct (Hinv check_state) as (_ & Hexact & Hsplit & _).
    + apply state_after_reachable. vm_compute. eexists. reflexivity.
    + destruct Hexact as (Heq & _ & _); [vm_compute; discriminate|].
      rewrite Heq, Hsplit. vm_compute. done.
  - vm_compute. reflexivity.
  - destruct (Henter called_state 0%nat (thread_of called_state 0))
      as (s' & th' & Hexec & Hdc & _ & Hth' & Hpc' & _);
      [vm_compute; reflexivity..|].
    exists s', th'. split_and!; [exact Hexec| |exact Hth'|exact Hpc'].
    rewrite Hdc. vm_compute. reflexivity.
  - vm_compute. reflexivity.
  - destruct (Hinv teardown_state) as (_ & _ & _ & _ & Hleave).
    + apply state_after_reachable. vm_compute. eexists. reflexivity.
    + destruct (Hleave 0%nat (thread_of teardown_state 0))
        as (s' & th' & Hexec & Hdc & _ & _ & Hth' & Hpc');
        [vm_compute; reflexivity..|].
      exists s', th'. split_and!; [exact Hexec| |exact Hth'|exact Hpc'].
      rewrite Hdc. vm_compute. reflexivity.
Defined.

(** ** More of the sample host *)

(** [{"ticket":"7","event":5}]: an object whose [event] is not a string. *)
Definition text_no_event : string :=
  "{" +:+ dq +:+ "ticket" +:+ dq +:+ ":" +:+ dq +:+ "7" +:+ dq +:+ ","
      +:+ dq +:+ "event" +:+ dq +:+ ":5}".

(** A reader that knows this one text. *)
Definition number_event_reader (t : string) : option JsonValue :=
  if decide (t = text_no_event)
  then Some (JSON_OBJECT [("ticket", JSON_STRING "7"); ("event", JSON_NUMBER "5")])
  else None.

(** The connection of thread 0 is at the head of its loop; thread 1 is
    outside. *)
Definition loop_state : State := state_after open_sched.

(** Thread 0 has notified after its decrement. *)
Definition notified_state : State := state_after (race_sched ++ [(0%nat, LTau)]).

(** Thread 0 has read the flag and closed. *)
Definition closed_state : State :=
  state_after (open_sched ++ wait_sched ++ turn_sched ++ [(0%nat, LTau)]).

Lemma missing_event_reply_witness :
  TextHandler number_event_reader (eventHandlers sample_conn) text_no_event 5 =
    (5, [EvSend (PError {| message := "Bad message: no event property";
                           level := LERROR;
                           ticket := Some (JSON_STRING "7") |})]).
Proof.
  refine (missing_event_reply number_event_reader (eventHandlers sample_conn)
            text_no_event 5
            (JSON_OBJECT [("ticket", JSON_STRING "7"); ("event", JSON_NUMBER "5")])
            _ _); vm_compute; reflexivity.
Defined.

Lemma stopLock_excludes_witness :
  ∃ th, threads race_state !! 0%nat = Some th ∧ holds (pc th) = true.
Proof.
  assert (sample_reachable race_state) as Hr
    by (apply state_after_reachable; vm_compute; eexists; reflexivity).
  destruct (stopLock_excludes sample_reader sample_cpu_events [] race_state Hr)
    as (_ & Hiff & _).
  apply Hiff. vm_compute. reflexivity.
Defined.

Lemma stopLock_is_released_witness :
  ∃ n s', (1 ≤ n ≤ 4)%nat ∧
    exec sample_reader sample_cpu_events [] race_state (replicate n (0%nat, LTau))
      = Some s' ∧
    stopLock s' = None.
Proof.
  apply (stopLock_is_released sample_reader sample_cpu_events [] race_state 0%nat).
  - apply state_after_reachable. vm_compute. eexists. reflexivity.
  - vm_compute. reflexivity.
Defined.

Lemma no_lost_wakeup_witness :
  debuggersConnected race_state ≠ 0 ∨
  ∃ t' th' o, threads race_state !! t' = Some th' ∧ pc th' = H_Update o UNotify ∧
              stopLock race_state = Some t'.
Proof.
  refine (proj1 (no_lost_wakeup sample_reader sample_cpu_events [] race_state 1%nat
                   (thread_of race_state 1) _ _) _).
  - apply state_after_reachable. vm_compute. eexists. reflexivity.
  - vm_compute. reflexivity.
  - vm_compute. reflexivity.
Defined.

Lemma return_means_drained_witness : inflight (threads reset_state) = 0%nat.
Proof.
  refine (proj1 (return_means_drained sample_reader sample_cpu_events [] reset_state
                   1%nat (thread_of reset_state 1) _ _ _ _)).
  - apply state_after_reachable. vm_compute. eexists. reflexivity.
  - vm_compute. discriminate.
  - vm_compute. reflexivity.
  - right. vm_compute. reflexivity.
Defined.

Lemma step_other_threads_witness :
  length (threads notified_state) = length (threads race_state) ∧
  threads notified_state !! 1%nat = Some (at_pc (thread_of race_state 1) S_Relock).
Proof.
  destruct (step_other_threads sample_reader sample_cpu_events [] race_state 0%nat
              LTau notified_state) as [Hlen Hother].
  - vm_compute. reflexivity.
  - split; [exact Hlen|].
    destruct (Hother 1%nat (thread_of race_state 1)) as [Hsame|(_ & Hwoken & _)].
    + discriminate.
    + vm_compute. reflexivity.
    + vm_compute in Hsame. discriminate Hsame.
    + exact Hwoken.
Defined.

Lemma close_only_when_stopping_witness :
  ∃ evs, trace (thread_of closed_state 0) = trace (thread_of check_state 0) ++ evs ∧
    ∀ code, EvClose code ∈ evs →
      code = GOING_AWAY ∧ pc (thread_of check_state 0) = H_StopCheck ∧
      stopRequested check_state = true ∧
      ∃ d thd, threads check_state !! d = Some thd ∧ draining (pc thd) = true.
Proof.
  apply (close_only_when_stopping sample_reader sample_cpu_events [] check_state
           0%nat LTau closed_state).
  - apply state_after_reachable. vm_compute. eexists. reflexivity.
  - vm_compute. reflexivity.
  - vm_compute. reflexivity.
  - vm_compute. reflexivity.
Defined.

Lemma connection_locals_witness :
  tname (thread_of check_state 0) = "Debugger" ∧
  ws_open (loc (thread_of check_state 0)) = true.
Proof.
  destruct (connection_locals sample_reader sample_cpu_events [] check_state 0%nat
              (thread_of check_state 0)) as (Hname & _ & _ & _ & Hopen & _).
  - apply state_after_reachable. vm_compute. eexists. reflexivity.
  - vm_compute. reflexivity.
  - vm_compute. reflexivity.
  - split; [exact Hname|]. apply Hopen. right. vm_compute. reflexivity.
Defined.

Lemma drain_one_run_witness :
  ∃ s', exec sample_reader sample_cpu_events [] loop_state (drain_one 0 1) = Some s' ∧
    debuggersConnected s' = 0 ∧ stopRequested s' = false ∧ stopLock s' = None.
Proof.
  destruct (drain_one_run sample_reader sample_cpu_events [] loop_state 0%nat 1%nat
              (thread_of loop_state 0) (thread_of loop_state 1))
    as (s' & thc' & Hrun & Hdc & Hsr & Hlk & _).
  - apply state_after_reachable. vm_compute. eexists. reflexivity.
  - discriminate.
  - vm_compute. reflexivity.
  - vm_compute. reflexivity.
  - vm_compute. reflexivity.
  - vm_compute. reflexivity.
  - vm_compute. reflexivity.
  - vm_compute. reflexivity.
  - vm_compute. reflexivity.
  - exists s'. split_and!; assumption.
Defined.

Lemma short_session_run_witness :
  ∃ s', exec sample_reader sample_cpu_events [] (initial 2 0) (short_session 0)
          = Some s' ∧
    debuggersConnected s' = 0 ∧ stopRequested s' = false ∧ stopLock s' = None.
Proof.
  destruct (short_session_run sample_reader sample_cpu_events [] (initial 2 0) 0%nat
              idle_thread)
    as (s' & th' & Hrun & Hdc & Hsr & Hlk & _).
  - by exists 2%nat, 0, [].
  - reflexivity.
  - reflexivity.
  - reflexivity.
  - exists s'. split_and!; assumption.
Defined.

Lemma no_deadlock_witness :
  ∃ t' l s', internal l = true ∧
    step sample_reader sample_cpu_events [] race_state t' l = Some s'.
Proof.
  apply (no_deadlock sample_reader sample_cpu_events [] race_state 1%nat
           (thread_of race_state 1)).
  - apply state_after_reachable. vm_compute. eexists. reflexivity.
  - vm_compute. discriminate.
  - vm_compute. reflexivity.
  - vm_compute. discriminate.
Defined.
